(** * hutch_python.namespace: grouping objects into namespaces

    A shallow embedding of [src/hutch_python/namespace.py]
    ([class_namespace], its helper [inspect_device_cls], [tree_namespace]
    and its helper [unpack_node]) over a small model of the Python object
    store, followed by the properties of the two builders.

    Python objects live in a heap and are referred to by location, so that
    two names bound to the same object alias each other and [setattr] on
    one is seen through the other.  Exceptions, the log and the heap are
    threaded through a state-and-error monad. *)

From Stdlib Require Import Ascii String.
From stdpp Require Import gmap strings list fin_maps.
Open Scope string_scope.
Open Scope list_scope.

(** ** Python values and the object store *)

(** Locations and class identifiers (a class is named by its qualified
    name). *)
Abbreviation loc := nat (only parsing).
Abbreviation class_id := string (only parsing).

(** A value is the singleton [None] or a reference to an object. *)
Inductive val :=
| VNone
| VObj (l : loc).

Global Instance val_eq_dec : EqDecision val.
Proof. solve_decision. Defined.

(** An object: its runtime class ([type(obj)]), the attributes [getattr]
    finds on it (instance dictionary and class-level attributes alike),
    whether [setattr] of a new attribute succeeds (ints, strings and
    [object()] refuse with [AttributeError]), and its text when it is a
    [str]. *)
Record pyobj := PyObj {
  obj_class : class_id;
  obj_attrs : gmap string val;
  obj_settable : bool;
  obj_str : option string;
}.

Abbreviation heap := (list pyobj) (only parsing).

(** A reference outside the heap reads as a bare [object()]. *)
Definition bare_object : pyobj :=
  PyObj "object" ∅ false None.

Definition deref (h : heap) (l : loc) : pyobj :=
  default bare_object (h !! l).

(** The well-known classes the module refers to. *)
Definition Device : class_id := "Device".
Definition FunctionType : class_id := "function".
Definition NoneType : class_id := "NoneType".
Definition IterableNamespace : class_id := "IterableNamespace".

Definition type_of (h : heap) (v : val) : class_id :=
  match v with
  | VNone => NoneType
  | VObj l => obj_class (deref h l)
  end.

(** [hasattr(v, k)] and [getattr(v, k)] read the store.  [None] exposes
    only double-underscore attributes, none of which is modelled. *)
Definition heap_getattr (h : heap) (v : val) (k : string) : option val :=
  match v with
  | VNone => None
  | VObj l => obj_attrs (deref h l) !! k
  end.

Definition heap_hasattr (h : heap) (v : val) (k : string) : bool :=
  bool_decide (is_Some (heap_getattr h v k)).

Definition obj_set (k : string) (x : val) (o : pyobj) : pyobj :=
  PyObj (obj_class o) (<[k:=x]> (obj_attrs o)) (obj_settable o) (obj_str o).

(** [setattr(v, k, x)]: [None] when the object refuses the assignment. *)
Definition heap_setattr (h : heap) (v : val) (k : string) (x : val)
  : option heap :=
  match v with
  | VNone => None
  | VObj l =>
      match h !! l with
      | Some o =>
          if obj_settable o then Some (<[l:=obj_set k x o]> h) else None
      | None => None
      end
  end.

(** ** Exceptions, log records, and the monad *)

Inductive exn :=
| TypeError
| AttributeError
| ImportError.

Global Instance exn_eq_dec : EqDecision exn.
Proof. solve_decision. Defined.

Inductive result (A : Type) :=
| Ok (a : A)
| Raise (e : exn)
| OutOfFuel.
Arguments Ok {A} a.
Arguments Raise {A} e.
Arguments OutOfFuel {A}.

(** The first argument of [class_namespace]: a type, or a [str]. *)
Inductive cls_arg :=
| ClsType (c : class_id)
| ClsStr (s : string).

Global Instance cls_arg_eq_dec : EqDecision cls_arg.
Proof. solve_decision. Defined.

Inductive level := DEBUG | WARNING | ERROR.

Global Instance level_eq_dec : EqDecision level.
Proof. solve_decision. Defined.

(** One constructor per format string of the module. *)
Inductive log_msg :=
| MsgCreateClassNamespace (cls : cls_arg)
| MsgTypeNotLoaded (cls : string)
| MsgExcInfo (exc : exn)
| MsgCheckingSubdevices (device_cls : class_id)
| MsgMatchingSubdevices (device_cls : class_id) (attrs : list (list string))
| MsgNoMatchingSubdevices (device_cls : class_id)
| MsgAdding (name : string) (cls : cls_arg)
| MsgAddingDevice (device_name : val) (cls : cls_arg)
| MsgCreateTreeNamespace (names : list string)
| MsgReservedKeyword (key name : string)
| MsgInvalidIdentifier (key name : string)
| MsgTriedToOverwrite (obj : val) (key : string) (old : val)
| MsgNotAValidNode (obj : val)
| MsgCreatedTree (groups : gset string).

Global Instance log_msg_eq_dec : EqDecision log_msg.
Proof. solve_decision. Defined.

Abbreviation log_record := (level * log_msg)%type (only parsing).

Record state := State {
  st_heap : heap;
  st_log : list log_record;
}.

Definition M (A : Type) : Type := state → result A * state.

Definition ret {A} (a : A) : M A := λ s, (Ok a, s).

Definition bind {A B} (m : M A) (f : A → M B) : M B :=
  λ s, match m s with
       | (Ok a, s') => f a s'
       | (Raise e, s') => (Raise e, s')
       | (OutOfFuel, s') => (OutOfFuel, s')
       end.

Definition raise {A} (e : exn) : M A := λ s, (Raise e, s).
Definition out_of_fuel {A} : M A := λ s, (OutOfFuel, s).

(** [try: m  except e0: handler] *)
Definition try_except {A} (m : M A) (e0 : exn) (handler : M A) : M A :=
  λ s, match m s with
       | (Raise e, s') =>
           if bool_decide (e = e0) then handler s' else (Raise e, s')
       | r => r
       end.

Notation "'let*' x ':=' m 'in' k" := (bind m (λ x, k))
  (at level 10, x name, m at level 100, k at level 200, only parsing).
Notation "'let*' ' p ':=' m 'in' k" := (bind m (λ x, match x with p => k end))
  (at level 10, p pattern, m at level 100, k at level 200, only parsing).
Notation "m '>>' k" := (bind m (λ _, k))
  (at level 100, k at level 200, right associativity, only parsing).

Definition logger (lv : level) (msg : log_msg) : M unit :=
  λ s, (Ok tt, State (st_heap s) (st_log s ++ [(lv, msg)])).

Definition alloc (o : pyobj) : M val :=
  λ s, (Ok (VObj (length (st_heap s))), State (st_heap s ++ [o]) (st_log s)).

(** Modelled from the spec: [hutch_python.utils.IterableNamespace] is not
    among the sources.  The spec's namespace container is a
    dynamically-extensible record from attribute names to values;
    [IterableNamespace()] is a fresh one with no attribute (the names a
    [SimpleNamespace] exposes natively all carry underscores and never are
    segments or scope names here). *)
Definition new_namespace : pyobj :=
  PyObj IterableNamespace ∅ true None.

Definition IterableNamespace_new : M val := alloc new_namespace.

Definition hasattr (v : val) (k : string) : M bool :=
  λ s, (Ok (heap_hasattr (st_heap s) v k), s).

Definition getattr (v : val) (k : string) : M val :=
  λ s, match heap_getattr (st_heap s) v k with
       | Some x => (Ok x, s)
       | None => (Raise AttributeError, s)
       end.

Definition setattr (v : val) (k : string) (x : val) : M unit :=
  λ s, match heap_setattr (st_heap s) v k x with
       | Some h' => (Ok tt, State h' (st_log s))
       | None => (Raise AttributeError, s)
       end.

(** Monadic left-to-right loop: [for x in xs: acc = body(acc, x)]. *)
Fixpoint for_each {A B} (body : B → A → M B) (xs : list A) (acc : B) : M B :=
  match xs with
  | [] => ret acc
  | x :: xs' => let* acc' := body acc x in for_each body xs' acc'
  end.

(** ** Builtins on strings: [str.split], [keyword.iskeyword],
    [str.isidentifier] *)

(** [s.split(sep)] for a one-character separator: always a non-empty list. *)
Fixpoint split (sep : ascii) (s : string) : list string :=
  match s with
  | EmptyString => [EmptyString]
  | String c rest =>
      if Ascii.eqb c sep then EmptyString :: split sep rest
      else match split sep rest with
           | [] => [String c EmptyString]
           | hd :: tl => String c hd :: tl
           end
  end.

(** [keyword.kwlist] of Python 3. *)
Definition kwlist : list string :=
  [ "False"; "None"; "True"; "and"; "as"; "assert"; "async"; "await";
    "break"; "class"; "continue"; "def"; "del"; "elif"; "else"; "except";
    "finally"; "for"; "from"; "global"; "if"; "import"; "in"; "is";
    "lambda"; "nonlocal"; "not"; "or"; "pass"; "raise"; "return"; "try";
    "while"; "with"; "yield" ].

Definition iskeyword (s : string) : bool := bool_decide (s ∈ kwlist).

Definition is_id_start (c : ascii) : bool :=
  let n := nat_of_ascii c in
  (((65 <=? n) && (n <=? 90)) || ((97 <=? n) && (n <=? 122)) || (n =? 95))%nat.

Definition is_id_continue (c : ascii) : bool :=
  let n := nat_of_ascii c in
  is_id_start c || ((48 <=? n) && (n <=? 57))%nat.

Fixpoint all_chars (p : ascii → bool) (s : string) : bool :=
  match s with
  | EmptyString => true
  | String c rest => p c && all_chars p rest
  end.

(** [s.isidentifier()] on ASCII text: a letter or underscore followed by
    letters, digits and underscores. *)
Definition isidentifier (s : string) : bool :=
  match s with
  | EmptyString => false
  | String c rest => is_id_start c && all_chars is_id_continue rest
  end.

(** ** [tree_namespace] *)

(** The nested [defaultdict]: the object stored under the reserved key
    ['_obj'], if any, and the sub-dictionaries under the segment keys in
    insertion order.  A segment never contains an underscore (see
    [split_no_sep]), so it never is ['_obj'] and the two are kept apart. *)
#[local] Unset Elimination Schemes.
Inductive node :=
| Node (leaf : option val) (children : list (string * node)).
#[local] Set Elimination Schemes.

Definition nested_defaultdict : node := Node None [].

Definition node_leaf (n : node) : option val :=
  match n with Node leaf _ => leaf end.
Definition node_children (n : node) : list (string * node) :=
  match n with Node _ ch => ch end.

(** [d[key] = f(d[key])] on a [defaultdict]: the entry is created at the
    end when it is missing. *)
Fixpoint child_update (key : string) (f : node → node)
    (ch : list (string * node)) : list (string * node) :=
  match ch with
  | [] => [(key, f nested_defaultdict)]
  | (k, n) :: rest =>
      if String.eqb k key then (k, f n) :: rest
      else (k, n) :: child_update key f rest
  end.

(** [for key in keys: curr_dict = curr_dict[key]] then
    [curr_dict['_obj'] = obj]. *)
Fixpoint store_obj (keys : list string) (obj : val) (n : node) : node :=
  match keys with
  | [] => Node (Some obj) (node_children n)
  | key :: keys' =>
      Node (node_leaf n) (child_update key (store_obj keys' obj) (node_children n))
  end.

(** The validation loop over the keys of one name: stops at the first
    offending key with a warning. *)
Fixpoint check_keys (name : string) (keys : list string) : M bool :=
  match keys with
  | [] => ret true
  | key :: keys' =>
      if iskeyword key then
        logger WARNING (MsgReservedKeyword key name) >> ret false
      else if negb (isidentifier key) then
        logger WARNING (MsgInvalidIdentifier key name) >> ret false
      else check_keys name keys'
  end.

(** The first loop of [tree_namespace]. *)
Definition add_name (tree_dict : node) (item : string * val) : M node :=
  let '(name, obj) := item in
  let keys := split "_" name in
  let* valid_keys := check_keys name keys in
  if valid_keys : bool then ret (store_obj keys obj tree_dict)
  else ret tree_dict.

(** One attachment of [unpack_node]: the [else] branch after [sub_node]
    is known. *)
Definition attach (obj : val) (key : string) (sub_node : val) : M val :=
  try_except
    (setattr obj key sub_node >> ret obj)
    AttributeError
    (logger WARNING (MsgNotAValidNode obj) >>
     let* obj' := IterableNamespace_new in
     setattr obj' key sub_node >>
     ret obj').

(** The body of the loop of [unpack_node] over [node.items()]; [unpack]
    is the recursive call. *)
Definition unpack_item (unpack : node → M val) (obj : val)
    (item : string * node) : M val :=
  let '(key, value) := item in
  let* b := hasattr obj key in
  if b : bool then
    let* old := getattr obj key in
    logger WARNING (MsgTriedToOverwrite obj key old) >>
    ret obj
  else
    let* sub_node := unpack value in
    attach obj key sub_node.

Fixpoint unpack_node (n : node) : M val :=
  match n with
  | Node leaf children =>
      let* obj :=
        match leaf with
        | Some (VObj l) => ret (VObj l)
        | Some VNone | None => IterableNamespace_new
        end in
      for_each (unpack_item unpack_node) children obj
  end.

Definition ns_keys (v : val) : M (gset string) :=
  λ s, (Ok (dom (match v with
                 | VObj l => obj_attrs (deref (st_heap s) l)
                 | VNone => ∅
                 end)), s).

(** [objs] is [None] when the argument is left at its default. *)
Definition tree_namespace (objs : option (list (string * val))) : M val :=
  match objs with
  | None => raise AttributeError
  | Some objs =>
      logger DEBUG (MsgCreateTreeNamespace (map fst objs)) >>
      let* tree_dict := for_each add_name objs nested_defaultdict in
      let* tree_space := unpack_node tree_dict in
      let* groups := ns_keys tree_space in
      logger DEBUG (MsgCreatedTree groups) >>
      ret tree_space
  end.

(** ** [class_namespace] *)

(** An ophyd [Component] as seen on the class: [cpt.cls] (absent on the
    component kinds that carry none, so that [hasattr(cpt, 'cls')] fails)
    and [cpt.lazy]. *)
Record component := Component {
  cpt_cls : option class_id;
  cpt_lazy : bool;
}.

(** A class: its proper ancestors ([__mro__[1:]]), [component_names], and
    the components [getattr(cls, name)] finds. *)
Record pyclass := PyClass {
  cls_ancestors : list class_id;
  cls_component_names : list string;
  cls_dict : gmap string component;
}.

Abbreviation paths := (list (list string)) (only parsing).

Section ClassNamespace.

(** The classes of the running interpreter, and
    [hutch_python.utils.find_class], the type-resolution collaborator. *)
Variable classes : class_id → pyclass.
Variable find_class : string → exn + class_id.

Definition issubclass (c d : class_id) : bool :=
  bool_decide (c = d) || bool_decide (d ∈ cls_ancestors (classes c)).

(** [issubclass(c, d)] and [isinstance(v, d)] raise [TypeError] when [d]
    is not a class. *)
Definition py_issubclass (c : class_id) (d : cls_arg) : M bool :=
  match d with
  | ClsType d => ret (issubclass c d)
  | ClsStr _ => raise TypeError
  end.

Definition py_type (v : val) : M class_id :=
  λ s, (Ok (type_of (st_heap s) v), s).

Definition py_isinstance (v : val) (d : cls_arg) : M bool :=
  let* c := py_type v in py_issubclass c d.

(** [inspect.isfunction]: [isinstance(obj, types.FunctionType)]. *)
Definition isfunction (v : val) : M bool :=
  py_isinstance v (ClsType FunctionType).

Definition class_getattr (c : class_id) (name : string) : M component :=
  match cls_dict (classes c) !! name with
  | Some cpt => ret cpt
  | None => raise AttributeError
  end.

Definition debug_subdevices (device_cls : class_id) (attrs : paths) : M unit :=
  match attrs with
  | [] => logger DEBUG (MsgNoMatchingSubdevices device_cls)
  | _ => logger DEBUG (MsgMatchingSubdevices device_cls attrs)
  end.

(** The recursive helper.  [fuel] bounds the depth of the recursion, which
    the source does not bound: [OutOfFuel] stands for a recursion that does
    not come back (CPython ends it with [RecursionError]).  The cache
    dictionary is passed in and out. *)
Fixpoint inspect_device_cls (fuel : nat) (device_cls : class_id)
    (desired_cls : cls_arg) (cache : gmap class_id paths)
  : M (paths * gmap class_id paths) :=
  match cache !! device_cls with
  | Some attrs => ret (attrs, cache)
  | None =>
      match fuel with
      | O => out_of_fuel
      | S fuel' =>
          let* '(attrs, cache) :=
            if issubclass device_cls Device then
              logger DEBUG (MsgCheckingSubdevices device_cls) >>
              let* '(attrs, cache) :=
                for_each
                  (λ '(attrs, cache) cpt_name,
                     let* cpt := class_getattr device_cls cpt_name in
                     match cpt_cls cpt with
                     | Some ccls =>
                         if negb (cpt_lazy cpt) then
                           let* m := py_issubclass ccls desired_cls in
                           let attrs :=
                             if m : bool then attrs ++ [[cpt_name]] else attrs in
                           let* '(subattrs, cache) :=
                             inspect_device_cls fuel' ccls desired_cls cache in
                           let expand_subattrs := map (cons cpt_name) subattrs in
                           ret (attrs ++ expand_subattrs, cache)
                         else ret (attrs, cache)
                     | None => ret (attrs, cache)
                     end)
                  (cls_component_names (classes device_cls))
                  ([], cache) in
              debug_subdevices device_cls attrs >>
              ret (attrs, cache)
            else ret ([], cache) in
          ret (attrs, <[device_cls:=attrs]> cache)
      end
  end.

(** The text of an attribute name: [setattr] raises [TypeError] unless
    the name is a [str]. *)
Definition as_str (v : val) : M string :=
  λ s, match v with
       | VObj l =>
           match obj_str (deref (st_heap s) l) with
           | Some t => (Ok t, s)
           | None => (Raise TypeError, s)
           end
       | VNone => (Raise TypeError, s)
       end.

(** [device = obj; for attr in attrs: device = getattr(device, attr)] *)
Definition walk (obj : val) (attrs : list string) : M val :=
  for_each getattr attrs obj.

Definition add_subdevice (class_space : val) (cls : cls_arg) (obj : val)
    (_ : unit) (attrs : list string) : M unit :=
  let* device := walk obj attrs in
  let* name := getattr device "name" in
  logger DEBUG (MsgAddingDevice name cls) >>
  let* name := as_str name in
  setattr class_space name device.

(** The body of the loop over [scope_objs.items()]. *)
Definition visit (fuel : nat) (class_space : val) (cls : cls_arg)
    (cache : gmap class_id paths) (item : string * val)
  : M (gmap class_id paths) :=
  let '(name, obj) := item in
  let* include :=
    if bool_decide (cls = ClsStr "function") then isfunction obj
    else py_isinstance obj cls in
  (if include : bool then
     logger DEBUG (MsgAdding name cls) >>
     setattr class_space name obj
   else ret tt) >>
  let* is_device := py_isinstance obj (ClsType Device) in
  if is_device : bool then
    let* obj_cls := py_type obj in
    let* '(subdevice_attrs, cache) :=
      inspect_device_cls fuel obj_cls cls cache in
    for_each (add_subdevice class_space cls obj) subdevice_attrs tt >>
    ret cache
  else ret cache.

(** Resolution of a [str] argument: [None] stands for the early
    [return class_space] of the [except] branch. *)
Definition resolve (cls : cls_arg) : M (option cls_arg) :=
  match cls with
  | ClsStr name =>
      if bool_decide (name ≠ "function") then
        match find_class name with
        | inr c => ret (Some (ClsType c))
        | inl exc =>
            logger ERROR (MsgTypeNotLoaded name) >>
            logger DEBUG (MsgExcInfo exc) >>
            ret None
        end
      else ret (Some cls)
  | ClsType _ => ret (Some cls)
  end.

(** [scope_objs] is the mapping [extract_objs] hands back, in its
    iteration order. *)
Definition class_namespace (fuel : nat) (cls : cls_arg)
    (scope_objs : list (string * val)) : M val :=
  logger DEBUG (MsgCreateClassNamespace cls) >>
  let* class_space := IterableNamespace_new in
  let* resolved := resolve cls in
  match resolved with
  | None => ret class_space
  | Some cls =>
      for_each (visit fuel class_space cls) scope_objs ∅ >>
      ret class_space
  end.

End ClassNamespace.

(** ** Specification vocabulary *)

(** Total and partial correctness of a computation from a given state:
    [wp] demands a normal return, [wlp] constrains it when there is one. *)
Definition wp {A} (m : M A) (Q : A → state → Prop) (s : state) : Prop :=
  match m s with
  | (Ok a, s') => Q a s'
  | _ => False
  end.

Definition wlp {A} (m : M A) (Q : A → state → Prop) (s : state) : Prop :=
  match m s with
  | (Ok a, s') => Q a s'
  | _ => True
  end.

(** A computation that leaves the heap as it is, however it ends. *)
Definition heap_const {A} (m : M A) : Prop :=
  ∀ s, st_heap (m s).2 = st_heap s.

(** A computation that keeps a property of the heap, however it ends. *)
Definition preserves (J : heap → Prop) {A} (m : M A) : Prop :=
  ∀ s, J (st_heap s) → J (st_heap (m s).2).

(** [h'] is [h] followed by one namespace. *)
Definition namespace_appended (h h' : heap) : Prop :=
  ∃ ns, h' = h ++ [ns]
        ∧ obj_class ns = IterableNamespace ∧ obj_settable ns = true.

(** A fuelled computation that no amount of fuel lets return. *)
Inductive diverges {A} (run : nat → M A) (s : state) : Prop :=
| diverges_intro : (∀ fuel, (run fuel s).1 = OutOfFuel) → diverges run s.

(** [root.k1.k2...kn] read in a heap. *)
Fixpoint getattr_path (h : heap) (v : val) (path : list string) : option val :=
  match path with
  | [] => Some v
  | k :: rest =>
      match heap_getattr h v k with
      | Some x => getattr_path h x rest
      | None => None
      end
  end.

(** *** Name trees *)

Definition valid_key (key : string) : bool :=
  negb (iskeyword key) && isidentifier key.

(** All segments of the name are non-keyword identifiers. *)
Definition valid_name (name : string) : bool :=
  forallb valid_key (split "_" name).

(** The dictionary the first loop of [tree_namespace] builds. *)
Definition tree_dict_from (t : node) (objs : list (string * val)) : node :=
  fold_left
    (λ t item, if valid_name item.1 then store_obj (split "_" item.1) item.2 t
               else t)
    objs t.

Definition tree_dict (objs : list (string * val)) : node :=
  tree_dict_from nested_defaultdict objs.

Fixpoint lookup_child (key : string) (ch : list (string * node))
  : option node :=
  match ch with
  | [] => None
  | (k, n) :: rest => if String.eqb k key then Some n else lookup_child key rest
  end.

(** The sub-dictionary at a path of keys. *)
Fixpoint node_at (n : node) (p : list string) : option node :=
  match p with
  | [] => Some n
  | k :: rest =>
      match lookup_child k (node_children n) with
      | Some c => node_at c rest
      | None => None
      end
  end.

(** The object stored at a path, and the children below it. *)
Definition leaf_at (n : node) (p : list string) : option val :=
  match node_at n p with
  | Some m => node_leaf m
  | None => None
  end.

Definition children_at (n : node) (p : list string) : list (string * node) :=
  match node_at n p with
  | Some m => node_children m
  | None => []
  end.

(** The object a node contributes as a container that receives children:
    its leaf object, when it has one and has children. *)
Definition own_branch (n : node) : list loc :=
  match n with
  | Node (Some (VObj l)) (_ :: _) => [l]
  | _ => []
  end.

(** The leaf objects of the tree that are also prefixes of other names. *)
Fixpoint branch_locs (n : node) : list loc :=
  match n with
  | Node leaf ch => own_branch (Node leaf ch) ++ flat_map (λ kc, branch_locs kc.2) ch
  end.

(** A conflict-free tree in a heap: an object that is both a leaf and a
    prefix is allocated and exposes none of the keys to be attached to
    it. *)
#[local] Unset Elimination Schemes.

(** The keys of every dictionary of the tree are distinct (they are the
    keys of a [dict]). *)
Inductive distinct_keys : node → Prop :=
| distinct_keys_node leaf ch :
    NoDup (map fst ch) →
    Forall (λ kc, distinct_keys kc.2) ch →
    distinct_keys (Node leaf ch).

#[local] Set Elimination Schemes.




(** No attribute present in [h] is lost or changed in [h']. *)
Definition attrs_preserved (h h' : heap) : Prop :=
  ∀ v k x, heap_getattr h v k = Some x → heap_getattr h' v k = Some x.

(** Every [None] an attribute holds in [h'] was there in [h]. *)
Definition no_new_none (h h' : heap) : Prop :=
  ∀ v k, heap_getattr h' v k = Some VNone → heap_getattr h v k = Some VNone.

(** [h'] extends [h] with namespaces only, and changes neither the class
    nor the settability of an object of [h]. *)
Definition heap_extends (h h' : heap) : Prop :=
  (length h ≤ length h')%nat
  ∧ (∀ l, (l < length h)%nat →
          obj_class (deref h' l) = obj_class (deref h l)
          ∧ obj_settable (deref h' l) = obj_settable (deref h l))
  ∧ (∀ l, (length h ≤ l < length h')%nat →
          obj_class (deref h' l) = IterableNamespace
          ∧ obj_settable (deref h' l) = true).






(** A computation that reads nothing from the log and only appends to
    it. *)
Definition log_framed {A} (m : M A) : Prop :=
  ∀ h log,
    m (State h log)
    = ((m (State h [])).1,
       State (st_heap (m (State h [])).2) (log ++ st_log (m (State h [])).2)).

(** The warning the validation loop logs for a key. *)
Definition key_warning (name key : string) (r : log_record) : Prop :=
  r = (WARNING, MsgReservedKeyword key name)
  ∨ r = (WARNING, MsgInvalidIdentifier key name).

Definition grows (h h' : heap) : Prop :=
  attrs_preserved h h' ∧ no_new_none h h' ∧ heap_extends h h'.

(** The warning the validation loop has for a list of keys: that of the
    first key that is a keyword or no identifier, the keyword test first. *)
Definition keys_warning (name : string) (keys : list string)
  : option log_record :=
  match find (λ key, negb (valid_key key)) keys with
  | Some key =>
      Some (WARNING,
            if iskeyword key then MsgReservedKeyword key name
            else MsgInvalidIdentifier key name)
  | None => None
  end.

Definition name_warning (name : string) : option log_record :=
  keys_warning name (split "_" name).

(** An object bound to a valid name whose segments are a proper prefix of
    the segments of another valid name. *)
Definition is_branch (objs : list (string * val)) (l : loc) : Prop :=
  ∃ name name' obj' k rest,
    (name, VObj l) ∈ objs ∧ valid_name name = true
    ∧ (name', obj') ∈ objs ∧ valid_name name' = true
    ∧ split "_" name' = split "_" name ++ k :: rest.

Section ClassStructure.

Variable classes : class_id → pyclass.

(** The class reached from [c] along [path], every segment being a
    declared component slot of a composite class that carries a type and is
    not lazy; [None] as soon as one segment is not such a slot. *)
Fixpoint path_target (c : class_id) (path : list string) : option class_id :=
  match path with
  | [] => Some c
  | name :: rest =>
      if issubclass classes c Device
         && bool_decide (name ∈ cls_component_names (classes c)) then
        match cls_dict (classes c) !! name with
        | Some (Component (Some ccls) false) => path_target ccls rest
        | _ => None
        end
      else None
  end.

(** The class a path's slots declare, laziness ignored. *)
Fixpoint declared_target (c : class_id) (path : list string) : option class_id :=
  match path with
  | [] => Some c
  | name :: rest =>
      match cls_dict (classes c) !! name with
      | Some (Component (Some ccls) _) => declared_target ccls rest
      | _ => None
      end
  end.

(** [isinstance(v, d)] for the resolved target: a class, or the
    ['function'] sentinel. *)
Definition instance_of (h : heap) (v : val) (d : cls_arg) : Prop :=
  match d with
  | ClsType d => issubclass classes (type_of h v) d = true
  | ClsStr _ => issubclass classes (type_of h v) FunctionType = true
  end.

Definition matches (t : class_id) (d : cls_arg) : Prop :=
  match d with
  | ClsType d => issubclass classes t d = true
  | ClsStr _ => False
  end.

(** A discovered path of class [c] for the desired type [d]. *)
Definition good_path (d : cls_arg) (c : class_id) (path : list string) : Prop :=
  path ≠ [] ∧ ∃ t, path_target c path = Some t ∧ matches t d.

Definition cache_ok (d : cls_arg) (cache : gmap class_id paths) : Prop :=
  ∀ c ps, cache !! c = Some ps → Forall (good_path d c) ps.

(** Live composite instances follow their class: every typed, non-lazy
    component slot of a [Device] holds an instance of exactly the slot's
    class (ophyd instantiates [cpt.cls] and forbids rebinding). *)
Definition heap_typed (h : heap) : Prop :=
  ∀ l o name ccls,
    h !! l = Some o →
    issubclass classes (obj_class o) Device = true →
    name ∈ cls_component_names (classes (obj_class o)) →
    cls_dict (classes (obj_class o)) !! name = Some (Component (Some ccls) false) →
    ∃ l' o', obj_attrs o !! name = Some (VObj l') ∧ h !! l' = Some o'
             ∧ obj_class o' = ccls.

(** Every object of the scope is allocated. *)
Definition scope_live (h : heap) (scope_objs : list (string * val)) : Prop :=
  ∀ name l, (name, VObj l) ∈ scope_objs → l < length h.

(** The composite structure below [c] has depth less than [n]: no class is
    reached again from itself, and every component name resolves. *)
Fixpoint acyclic_depth (n : nat) (c : class_id) : bool :=
  match n with
  | O => false
  | S n' =>
      negb (issubclass classes c Device)
      || forallb
           (λ name,
              match cls_dict (classes c) !! name with
              | Some (Component (Some ccls) false) => acyclic_depth n' ccls
              | Some _ => true
              | None => false
              end)
           (cls_component_names (classes c))
  end.

(** What [inspect_device_cls] guarantees on return: an unchanged heap,
    good paths, and a cache of good paths (paths through typed non-lazy
    slots that end in a matching slot). *)
Definition inspect_post (d : cls_arg) (c : class_id) (s : state)
    (r : paths * gmap class_id paths) (s' : state) : Prop :=
  st_heap s' = st_heap s
  ∧ Forall (good_path d c) r.1 ∧ cache_ok d r.2.

(** The invariant of the loop of [class_namespace] over the scope: the
    heap is the initial one followed by the namespace under construction,
    whose members all are of the target. *)
Definition members_ok (h0 : heap) (d : cls_arg) (s : state) : Prop :=
  ∃ ns, st_heap s = h0 ++ [ns]
        ∧ obj_class ns = IterableNamespace
        ∧ obj_settable ns = true
        ∧ ∀ k v, obj_attrs ns !! k = Some v →
                 instance_of (h0 ++ [new_namespace]) v d.

(** References of the heap stay in the heap. *)
Definition val_live (h : heap) (v : val) : Prop :=
  match v with
  | VObj l => (l < length h)%nat
  | VNone => True
  end.

Global Instance val_live_dec h v : Decision (val_live h v).
Proof. destruct v; simpl; apply _. Defined.

Definition heap_closed (h : heap) : Prop :=
  ∀ l o k x, h !! l = Some o → obj_attrs o !! k = Some x → val_live h x.

(** The text of a [str] object. *)
Definition str_of (h : heap) (v : val) : option string :=
  match v with
  | VObj l => obj_str (deref h l)
  | VNone => None
  end.

(** [str(getattr(obj.k1...kn, 'name'))]: the name under which the
    sub-object at a path is added. *)
Definition subdevice_name (h : heap) (obj : val) (path : list string)
  : option string :=
  match getattr_path h obj path with
  | Some device =>
      match heap_getattr h device "name" with
      | Some name => str_of h name
      | None => None
      end
  | None => None
  end.

(** Every instance of class [dc] carries a [name] that is a [str]. *)
Definition heap_named (dc : class_id) (h : heap) : Prop :=
  ∀ l o, h !! l = Some o → issubclass classes (obj_class o) dc = true →
         ∃ nm, obj_attrs o !! "name" = Some nm ∧ is_Some (str_of h nm).

(** The keys [class_namespace] sets for one entry of the scope, and for a
    whole scope. *)
Definition entry_key (d : cls_arg) (h : heap) (name : string) (obj : val)
    (k : string) : Prop :=
  (k = name ∧ instance_of h obj d)
  ∨ (issubclass classes (type_of h obj) Device = true
     ∧ ∃ p, good_path d (type_of h obj) p ∧ subdevice_name h obj p = Some k).

Definition member_key (d : cls_arg) (h : heap)
    (scope_objs : list (string * val)) (k : string) : Prop :=
  ∃ name obj, (name, obj) ∈ scope_objs ∧ entry_key d h name obj k.

(** A cache that holds, for each class it knows, exactly the good paths
    of the class. *)
Definition cache_exact (d : cls_arg) (cache : gmap class_id paths) : Prop :=
  ∀ c ps, cache !! c = Some ps → ∀ p, p ∈ ps ↔ good_path d c p.

End ClassStructure.

(** The target after resolution of a [str] argument, when there is one. *)
Definition target_of (find_class : string → exn + class_id) (cls : cls_arg)
  : option cls_arg :=
  match cls with
  | ClsStr name =>
      if bool_decide (name ≠ "function") then
        match find_class name with
        | inr c => Some (ClsType c)
        | inl _ => None
        end
      else Some cls
  | ClsType _ => Some cls
  end.

(** ** Concrete interpreters used in the examples *)

Definition plain_class : pyclass := PyClass ["object"] [] ∅.

Definition class_table (tbl : list (class_id * pyclass)) : class_id → pyclass :=
  λ c, default plain_class (list_to_map (M:=gmap class_id pyclass) tbl !! c).

Definition find_in (tbl : list (class_id * pyclass)) (name : string)
  : exn + class_id :=
  match list_to_map (M:=gmap class_id pyclass) tbl !! name with
  | Some _ => inr name
  | None => inl ImportError
  end.

(** A motor with an eager gauge and a lazy one; a gauge is itself a
    device without components. *)
Definition demo_table : list (class_id * pyclass) :=
  [ ("Device", PyClass ["object"] [] ∅);
    ("Gauge", PyClass ["Device"; "object"] [] ∅);
    ("Motor", PyClass ["Device"; "object"] ["gauge"; "spare"]
                {[ "gauge" := Component (Some "Gauge") false;
                   "spare" := Component (Some "Gauge") true ]});
    ("Stage", PyClass ["Device"; "object"] ["x"]
                {[ "x" := Component (Some "Motor") false ]}) ].

(** A class whose component is of the class itself. *)
Definition loop_table : list (class_id * pyclass) :=
  [ ("Device", PyClass ["object"] [] ∅);
    ("Loop", PyClass ["Device"; "object"] ["inner"]
               {[ "inner" := Component (Some "Loop") false ]}) ].

Definition str_obj (s : string) : pyobj := PyObj "str" ∅ false (Some s).
Definition int_obj : pyobj := PyObj "int" ∅ false None.
Definition function_obj : pyobj := PyObj "function" ∅ true None.

(** A heap with a motor [m1] (at 2) whose gauge (at 1) is named ["g"], a
    second gauge (at 4) named ["g"] too, and a function (at 5). *)
Definition demo_heap : heap :=
  [ str_obj "g";
    PyObj "Gauge" {[ "name" := VObj 0 ]} true None;
    PyObj "Motor" {[ "name" := VObj 3; "gauge" := VObj 1 ]} true None;
    str_obj "m1";
    PyObj "Gauge" {[ "name" := VObj 0 ]} true None;
    function_obj ].

(** An int (at 0), a motor (at 1), a valve that natively exposes [gauge]
    (at 2), and a function (at 3). *)
Definition tree_heap : heap :=
  [ int_obj;
    PyObj "Motor" ∅ true None;
    PyObj "Valve" {[ "gauge" := VObj 0 ]} true None;
    function_obj ].

Definition primitive_objs : list (string * val) :=
  [("a_b", VObj 0); ("a_b_c", VObj 1)].

Definition tree_run (objs : list (string * val)) : result val * state :=
  tree_namespace (Some objs) (State tree_heap []).

Definition demo_scope : list (string * val) :=
  [("m", VObj 2); ("g2", VObj 4); ("f", VObj 5)].

Definition demo_class_run (cls : cls_arg) (scope_objs : list (string * val))
  : result val * state :=
  class_namespace (class_table demo_table) (find_in demo_table) 5 cls
    scope_objs (State demo_heap []).

Definition demo_inspect :=
  inspect_device_cls (class_table demo_table) 3 "Stage" (ClsType "Gauge") ∅
    (State [] []).
Definition demo_inspect_cache : gmap class_id paths :=
  match demo_inspect.1 with
  | Ok r => r.2
  | _ => ∅
  end.

(** * Properties *)

(** ** Rules of the two predicate transformers *)

Lemma wlp_ret {A} (a : A) (Q : A → state → Prop) s : Q a s → wlp (ret a) Q s.
Proof. done. Qed.

Lemma wlp_bind {A B} (m : M A) (f : A → M B) (Q : B → state → Prop) s :
  wlp m (λ a s', wlp (f a) Q s') s → wlp (bind m f) Q s.
Proof.
  unfold wlp, bind. destruct (m s) as [[a| |] s']; done.
Qed.

Lemma wlp_mono {A} (m : M A) (Q Q' : A → state → Prop) s :
  (∀ a s', Q a s' → Q' a s') → wlp m Q s → wlp m Q' s.
Proof.
  unfold wlp. destruct (m s) as [[a| |] s']; auto.
Qed.

Lemma wlp_elim {A} (m : M A) (Q : A → state → Prop) s a s' :
  wlp m Q s → m s = (Ok a, s') → Q a s'.
Proof. unfold wlp. intros H Hm. by rewrite Hm in H. Qed.

Lemma wlp_for_each {A B} (body : B → A → M B) (I : B → state → Prop) xs :
  ∀ acc s,
    (∀ acc x s, x ∈ xs → I acc s → wlp (body acc x) I s) →
    I acc s → wlp (for_each body xs acc) I s.
Proof.
  induction xs as [|x xs IH]; intros acc s Hbody HI; simpl.
  - by apply wlp_ret.
  - apply wlp_bind. eapply wlp_mono; [|apply Hbody; [left|done]].
    intros acc' s' HI'. apply IH; [|done].
    intros acc'' y s'' Hy. apply Hbody. by right.
Qed.

Lemma wp_ret {A} (a : A) (Q : A → state → Prop) s : Q a s → wp (ret a) Q s.
Proof. done. Qed.

Lemma wp_bind {A B} (m : M A) (f : A → M B) (Q : B → state → Prop) s :
  wp m (λ a s', wp (f a) Q s') s → wp (bind m f) Q s.
Proof.
  unfold wp, bind. destruct (m s) as [[a| |] s']; done.
Qed.

Lemma wp_mono {A} (m : M A) (Q Q' : A → state → Prop) s :
  (∀ a s', Q a s' → Q' a s') → wp m Q s → wp m Q' s.
Proof.
  unfold wp. destruct (m s) as [[a| |] s']; auto.
Qed.

Lemma wp_elim {A} (m : M A) (Q : A → state → Prop) s :
  wp m Q s → ∃ a s', m s = (Ok a, s') ∧ Q a s'.
Proof.
  unfold wp. destruct (m s) as [[a| |] s']; try done. eauto.
Qed.

Lemma wp_intro {A} (m : M A) (Q : A → state → Prop) s a s' :
  m s = (Ok a, s') → Q a s' → wp m Q s.
Proof. unfold wp. by intros ->. Qed.

Lemma wp_for_each {A B} (body : B → A → M B) (I : B → state → Prop) xs :
  ∀ acc s,
    (∀ acc x s, x ∈ xs → I acc s → wp (body acc x) I s) →
    I acc s → wp (for_each body xs acc) I s.
Proof.
  induction xs as [|x xs IH]; intros acc s Hbody HI; simpl.
  - by apply wp_ret.
  - apply wp_bind. eapply wp_mono; [|apply Hbody; [left|done]].
    intros acc' s' HI'. apply IH; [|done].
    intros acc'' y s'' Hy. apply Hbody. by right.
Qed.

Lemma wp_logger lv msg (Q : unit → state → Prop) s :
  Q tt (State (st_heap s) (st_log s ++ [(lv, msg)])) → wp (logger lv msg) Q s.
Proof. done. Qed.

Lemma wlp_logger lv msg (Q : unit → state → Prop) s :
  Q tt (State (st_heap s) (st_log s ++ [(lv, msg)])) → wlp (logger lv msg) Q s.
Proof. done. Qed.

(** ** Discovery of component paths *)

Section Discovery.

Variable classes : class_id → pyclass.

Lemma good_path_single d c name ccls :
  issubclass classes c Device = true →
  name ∈ cls_component_names (classes c) →
  cls_dict (classes c) !! name = Some (Component (Some ccls) false) →
  matches classes ccls d →
  good_path classes d c [name].
Proof.
  intros Hdev Hin Hcpt Hm. split; [done|]. exists ccls. split; [|done].
  simpl. rewrite Hdev, bool_decide_true by done. simpl. by rewrite Hcpt.
Qed.

Lemma good_path_cons d c name ccls path :
  issubclass classes c Device = true →
  name ∈ cls_component_names (classes c) →
  cls_dict (classes c) !! name = Some (Component (Some ccls) false) →
  good_path classes d ccls path →
  good_path classes d c (name :: path).
Proof.
  intros Hdev Hin Hcpt [_ (t & Ht & Hm)]. split; [done|]. exists t.
  split; [|done].
  simpl. rewrite Hdev, bool_decide_true by done. simpl. by rewrite Hcpt.
Qed.

Lemma wlp_py_issubclass c d (Q : bool → state → Prop) s :
  (∀ d', d = ClsType d' → Q (issubclass classes c d') s) →
  wlp (py_issubclass classes c d) Q s.
Proof.
  destruct d as [d'|t]; simpl; [|done]. intros H. by apply H.
Qed.

(** The cache only ever holds, and the helper only ever returns, good
    paths; and the helper leaves the heap alone. *)
Lemma inspect_device_cls_good fuel :
  ∀ c d cache s,
    cache_ok classes d cache →
    wlp (inspect_device_cls classes fuel c d cache)
        (inspect_post classes d c s) s.
Proof.
  induction fuel as [|fuel IH]; intros c d cache s Hcache; simpl.
  - destruct (cache !! c) as [ps|] eqn:Hc; [|done].
    apply wlp_ret. split; [done|]. split; [by eapply Hcache|done].
  - destruct (cache !! c) as [ps|] eqn:Hc.
    { apply wlp_ret. split; [done|]. split; [by eapply Hcache|done]. }
    apply wlp_bind.
    assert (Hfin : ∀ (r : paths * gmap class_id paths) s',
      inspect_post classes d c s r s' →
      wlp (let '(attrs, cache0) := r in ret (attrs, <[c:=attrs]> cache0))
          (inspect_post classes d c s) s').
    { intros [attrs cache0] s' (Hh & Hattrs & Hc0). apply wlp_ret.
      split; [done|]. split; [done|].
      intros c' ps'. simpl. rewrite lookup_insert. case_decide as Hcc.
      - intros [= <-]. by subst.
      - apply Hc0. }
    destruct (issubclass classes c Device) eqn:Hdev;
      [|apply wlp_ret, (Hfin ([], cache)); by repeat split].
    apply wlp_bind, wlp_logger, wlp_bind.
    eapply wlp_mono; last first.
    { apply (wlp_for_each _ (inspect_post classes d c s)); [|by repeat split].
      intros [attrs cache0] name s0 Hname (Hh & Hattrs & Hc0). simpl in *.
      apply wlp_bind. unfold class_getattr.
      destruct (cls_dict (classes c) !! name) as [[ocls lazy]|] eqn:Hcpt;
        [|done].
      apply wlp_ret. simpl.
      destruct ocls as [ccls|]; [|by apply wlp_ret].
      destruct lazy; simpl; [by apply wlp_ret|].
      apply wlp_bind, wlp_py_issubclass. intros d' ->.
      apply wlp_bind. eapply wlp_mono; [|by apply IH].
      intros [subattrs cache1] s1 (Hh1 & Hsub & Hc1). simpl in *.
      apply wlp_ret. split; [congruence|]. simpl. split; [|done].
      apply Forall_app. split.
      - destruct (issubclass classes ccls d') eqn:Hm; [|done].
        apply Forall_app. split; [done|]. apply Forall_singleton.
        by eapply good_path_single.
      - apply Forall_forall. intros p Hp.
        apply list_elem_of_fmap in Hp as (p' & -> & Hp').
        eapply good_path_cons; [done..|].
        by eapply Forall_forall in Hsub. }
    intros [attrs cache0] s0 (Hh & Hattrs & Hc0). simpl in *.
    apply wlp_bind.
    eapply (wlp_mono _ (λ _ s1, st_heap s1 = st_heap s0)).
    { intros _ s1 Hh1. apply wlp_ret.
      apply (Hfin (attrs, cache0)). split; [congruence|done]. }
    by destruct attrs.
Qed.

End Discovery.

Section DiscoveryClaims.

Variable classes : class_id → pyclass.

Lemma cache_ok_empty d : cache_ok classes d ∅.
Proof. intros c ps. by rewrite lookup_empty. Qed.

Lemma path_target_segment c p1 name p2 t :
  path_target classes c (p1 ++ name :: p2) = Some t →
  ∃ c' ccls,
    declared_target classes c p1 = Some c'
    ∧ cls_dict (classes c') !! name = Some (Component (Some ccls) false).
Proof.
  revert c. induction p1 as [|k p1 IH]; intros c; simpl.
  - destruct (_ && _); [|done].
    destruct (cls_dict (classes c) !! name) as [[[ccls|] []]|] eqn:E;
      try done.
    eauto.
  - destruct (_ && _); [|done].
    destruct (cls_dict (classes c) !! k) as [[[ccls|] []]|] eqn:E; try done.
    intros (c' & ccls' & Hc' & Hcpt)%IH. eauto.
Qed.

(** C4: in every path the helper returns, each segment is, in the class
    its predecessors lead to, a declared slot that carries a type and is not
    lazy; so no lazy (or untyped) slot is matched or recursed through. *)
Theorem inspect_device_cls_skips_lazy fuel c d cache s attrs cache' s' :
  cache_ok classes d cache →
  inspect_device_cls classes fuel c d cache s = (Ok (attrs, cache'), s') →
  ∀ path p1 name p2,
    path ∈ attrs → path = p1 ++ name :: p2 →
    ∃ c' cpt,
      declared_target classes c p1 = Some c'
      ∧ cls_dict (classes c') !! name = Some cpt
      ∧ cpt_lazy cpt = false ∧ is_Some (cpt_cls cpt).
Proof.
  intros Hcache Hrun path p1 name p2 Hin ->.
  pose proof (inspect_device_cls_good classes fuel c d cache s Hcache) as H.
  eapply wlp_elim in H; [|done]. destruct H as (_ & Hattrs & _).
  simpl in Hattrs.
  eapply Forall_forall in Hattrs as [_ (t & Ht & _)]; [|done].
  apply path_target_segment in Ht as (c' & ccls & Hc' & Hcpt).
  exists c', (Component (Some ccls) false). by eauto.
Qed.

Lemma acyclic_depth_mono (n : nat) :
  ∀ (m : nat) c, (n ≤ m)%nat → acyclic_depth classes n c = true →
         acyclic_depth classes m c = true.
Proof.
  induction n as [|n IH]; intros m c Hle; simpl; [done|].
  destruct m as [|m]; [lia|]. simpl.
  destruct (negb _); simpl; [done|].
  rewrite !forallb_forall. intros H name Hname. specialize (H name Hname).
  destruct (cls_dict (classes c) !! name) as [[[ccls|] []]|]; try done.
  apply IH; [lia|done].
Qed.

Lemma inspect_device_cls_total n :
  ∀ c d cache s,
    acyclic_depth classes n c = true →
    wp (inspect_device_cls classes n c (ClsType d) cache) (λ _ _, True) s.
Proof.
  induction n as [|n IH]; intros c d cache s Hac; simpl in *; [done|].
  destruct (cache !! c) as [ps|]; [done|].
  apply wp_bind.
  destruct (issubclass classes c Device) eqn:Hdev; simpl in Hac; [|done].
  rewrite forallb_forall in Hac.
  apply wp_bind, wp_logger, wp_bind.
  eapply wp_mono; last first.
  { apply (wp_for_each _ (λ _ _, True)); [|done].
    intros [attrs cache0] name s0 Hname _.
    apply list_elem_of_In, Hac in Hname.
    apply wp_bind. unfold class_getattr.
    destruct (cls_dict (classes c) !! name) as [[[ccls|] []]|]; try done.
    apply wp_ret. simpl. apply wp_bind, wp_ret, wp_bind.
    eapply wp_mono; [|by apply IH]. by intros [subattrs cache1] s1 _. }
  intros [attrs cache0] s0 _. apply wp_bind.
  eapply (wp_mono _ (λ _ _, True)); [done|]. by destruct attrs.
Qed.

(** C7 (amended): when the composite structure below a class has finite
    depth, discovery returns its path list and cache for every fuel from
    that depth on. *)
Theorem inspect_device_cls_terminates (n fuel : nat) c d cache s :
  acyclic_depth classes n c = true → (n ≤ fuel)%nat →
  ∃ attrs cache' s',
    inspect_device_cls classes fuel c (ClsType d) cache s
    = (Ok (attrs, cache'), s').
Proof.
  intros Hac Hle.
  eapply acyclic_depth_mono in Hac; [|exact Hle].
  pose proof (inspect_device_cls_total fuel c d cache s Hac) as H.
  apply wp_elim in H as ([attrs cache'] & s' & Hrun & _). eauto.
Qed.

End DiscoveryClaims.

Lemma inspect_device_cls_skips_lazy_witness :
  ∃ c' cpt,
    declared_target (class_table demo_table) "Stage" ["x"] = Some c'
    ∧ cls_dict (class_table demo_table c') !! "gauge" = Some cpt
    ∧ cpt_lazy cpt = false ∧ is_Some (cpt_cls cpt).
Proof.
  apply (inspect_device_cls_skips_lazy (class_table demo_table) 3 "Stage" (ClsType "Gauge") ∅
           (State [] []) [["x"; "gauge"]] demo_inspect_cache demo_inspect.2
           (cache_ok_empty _ _) ltac:(vm_compute; reflexivity)
           ["x"; "gauge"] ["x"] "gauge" []).
  - apply list_elem_of_singleton. reflexivity.
  - reflexivity.
Defined.

Lemma inspect_device_cls_terminates_witness :
  ∃ attrs cache' s',
    inspect_device_cls (class_table demo_table) 7 "Stage" (ClsType "Gauge") ∅
      (State [] []) = (Ok (attrs, cache'), s').
Proof.
  apply (inspect_device_cls_terminates (class_table demo_table) 3 7
           "Stage" "Gauge" ∅ (State [] [])).
  - vm_compute. reflexivity.
  - lia.
Defined.

Lemma bind_out_of_fuel_l {A B} (m : M A) (f : A → M B) s :
  (m s).1 = OutOfFuel → (bind m f s).1 = OutOfFuel.
Proof. unfold bind. by destruct (m s) as [[a| |] s']. Qed.

Lemma bind_out_of_fuel_r {A B} (m : M A) (f : A → M B) s a s' :
  m s = (Ok a, s') → (f a s').1 = OutOfFuel → (bind m f s).1 = OutOfFuel.
Proof. unfold bind. by intros ->. Qed.

Lemma inspect_loop_diverges fuel :
  ∀ d cache s,
    cache !! "Loop" = None →
    (inspect_device_cls (class_table loop_table) fuel "Loop" (ClsType d)
       cache s).1 = OutOfFuel.
Proof.
  induction fuel as [|fuel IH]; intros d cache s Hc;
    cbn [inspect_device_cls]; rewrite Hc; [done|].
  change (issubclass (class_table loop_table) "Loop" Device) with true.
  change (cls_component_names (class_table loop_table "Loop"))
    with ["inner"].
  cbn match. cbn [for_each].
  apply bind_out_of_fuel_l.
  eapply bind_out_of_fuel_r; [reflexivity|].
  do 2 apply bind_out_of_fuel_l.
  eapply bind_out_of_fuel_r; [reflexivity|]. cbn match.
  eapply bind_out_of_fuel_r; [reflexivity|].
  apply bind_out_of_fuel_l. by apply IH.
Qed.

(** C7 (as stated, refuted): on a class whose component is of the class
    itself, no amount of fuel lets discovery return: the repeat visit is not
    detected and no partial list comes back. *)
Lemma inspect_device_cls_cycle_never_returns :
  diverges
    (λ fuel, inspect_device_cls (class_table loop_table) fuel "Loop"
               (ClsType "Device") ∅)
    (State [] []).
Proof. constructor. intros fuel. by apply inspect_loop_diverges. Qed.

(** ** Members of a class namespace *)

Lemma walk_run obj path :
  ∀ s, walk obj path s
       = (match getattr_path (st_heap s) obj path with
          | Some v => Ok v
          | None => Raise AttributeError
          end, s).
Proof.
  unfold walk. revert obj. induction path as [|k path IH]; intros obj s; [done|].
  simpl. unfold bind, getattr.
  destruct (heap_getattr (st_heap s) obj k) as [x|]; [|done]. apply IH.
Qed.

Lemma heap_setattr_last (h0 : list pyobj) ns k x :
  obj_settable ns = true →
  heap_setattr (h0 ++ [ns]) (VObj (length h0)) k x
  = Some (h0 ++ [obj_set k x ns]).
Proof.
  intros Hset. simpl. rewrite list_lookup_middle by done. rewrite Hset.
  f_equal. rewrite insert_app_r_alt by done.
  by rewrite Nat.sub_diag.
Qed.

Lemma type_of_last (h0 : list pyobj) ns ns' v :
  obj_class ns = obj_class ns' →
  type_of (h0 ++ [ns]) v = type_of (h0 ++ [ns']) v.
Proof.
  intros Hcls. destruct v as [|l]; [done|]. simpl. unfold deref.
  destruct (decide (l < length h0)%nat) as [Hlt|Hge].
  - by rewrite !lookup_app_l.
  - rewrite !lookup_app_r by lia.
    by destruct (l - length h0)%nat as [|[|i]].
Qed.

Section Members.

Variable classes : class_id → pyclass.
Variable find_class : string → exn + class_id.

Lemma getattr_path_typed (h0 h : list pyobj) :
  heap_typed classes h0 →
  (∀ l o, h0 !! l = Some o → h !! l = Some o) →
  ∀ path l o t,
    h0 !! l = Some o →
    path_target classes (obj_class o) path = Some t →
    ∃ l' o', getattr_path h (VObj l) path = Some (VObj l')
             ∧ h0 !! l' = Some o' ∧ obj_class o' = t.
Proof.
  intros Htyped Hext. induction path as [|k path IH]; intros l o t Hl; simpl.
  - intros [= <-]. eauto.
  - destruct (issubclass classes (obj_class o) Device) eqn:Hdev; [|done].
    case_bool_decide as Hk; [|done]. simpl.
    destruct (cls_dict (classes (obj_class o)) !! k) as [[[ccls|] []]|] eqn:Hcpt;
      try done.
    intros Ht.
    destruct (Htyped l o k ccls Hl Hdev Hk Hcpt) as (l' & o' & Ha & Hl' & Hc').
    unfold deref. rewrite (Hext _ _ Hl). simpl. rewrite Ha.
    subst ccls. by eapply IH.
Qed.

Lemma wlp_py_isinstance v d (Q : bool → state → Prop) s :
  (∀ d', d = ClsType d' →
         Q (issubclass classes (type_of (st_heap s) v) d') s) →
  wlp (py_isinstance classes v d) Q s.
Proof.
  intros H. unfold py_isinstance. apply wlp_bind.
  unfold py_type, wlp at 1. by apply wlp_py_issubclass.
Qed.

Section Loop.

Variable h0 : list pyobj.
Variable d : cls_arg.
Hypothesis Htyped : heap_typed classes h0.

Local Abbreviation members_ok := (members_ok classes h0 d).

Lemma wlp_setattr_member k v (Q : unit → state → Prop) s :
  members_ok s →
  instance_of classes (h0 ++ [new_namespace]) v d →
  (∀ s', members_ok s' → Q tt s') →
  wlp (setattr (VObj (length h0)) k v) Q s.
Proof.
  intros (ns & Hh & Hcls & Hset & Hattrs) Hv HQ.
  unfold wlp, setattr. rewrite Hh, heap_setattr_last by done.
  apply HQ. exists (obj_set k v ns). simpl. repeat split; try done.
  intros k' v'. rewrite lookup_insert. case_decide; [|by apply Hattrs].
  by intros [= <-].
Qed.

Lemma instance_of_state s v :
  members_ok s →
  instance_of classes (st_heap s) v d
  ↔ instance_of classes (h0 ++ [new_namespace]) v d.
Proof.
  intros (ns & Hh & Hcls & _). rewrite Hh. unfold instance_of.
  by rewrite (type_of_last h0 ns new_namespace v Hcls).
Qed.

Lemma wlp_add_subdevice c l o attrs s :
  h0 !! l = Some o → obj_class o = c →
  good_path classes d c attrs →
  members_ok s →
  wlp (add_subdevice (VObj (length h0)) d (VObj l) tt attrs)
      (λ _ s', members_ok s') s.
Proof.
  intros Hl Hc [_ (t & Ht & Hm)] Hs. unfold add_subdevice.
  apply wlp_bind. unfold wlp at 1. rewrite walk_run.
  destruct Hs as (ns & Hh & Hs).
  subst c.
  assert (∀ l0 o0, h0 !! l0 = Some o0 → st_heap s !! l0 = Some o0) as Hext.
  { intros l0 o0 Hl0. rewrite Hh. rewrite lookup_app_l; [done|].
    by eapply lookup_lt_Some. }
  destruct (getattr_path_typed h0 (st_heap s) Htyped Hext attrs l o t Hl Ht)
    as (l' & o' & -> & Hl' & Ho').
  apply wlp_bind. unfold wlp at 1, getattr.
  destruct (heap_getattr (st_heap s) (VObj l') "name") as [nm|]; [|done].
  apply wlp_bind, wlp_logger, wlp_bind. unfold wlp at 1, as_str.
  destruct nm as [|ln]; [done|]. simpl.
  destruct (obj_str (deref (st_heap s) ln)) as [name|]; [|done].
  apply wlp_setattr_member; [by exists ns| |done].
  destruct d as [d'|?]; [|done]. simpl in *. unfold deref.
  rewrite lookup_app_l by (by eapply lookup_lt_Some).
  rewrite Hl'. simpl. by rewrite Ho'.
Qed.

Lemma wlp_visit fuel cache item s :
  (∀ l, item.2 = VObj l → (l < length h0)%nat) →
  cache_ok classes d cache → members_ok s →
  wlp (visit classes fuel (VObj (length h0)) d cache item)
      (λ cache' s', cache_ok classes d cache' ∧ members_ok s') s.
Proof.
  destruct item as [name obj]. simpl. intros Hlive Hcache Hs.
  apply wlp_bind.
  apply (wlp_mono _ (λ include s',
    s' = s ∧ (include = true → instance_of classes (st_heap s) obj d))).
  2:{ case_bool_decide as Hfn.
      - apply wlp_py_isinstance. intros ? [= <-]. split; [done|].
        unfold instance_of. by rewrite Hfn.
      - apply wlp_py_isinstance. intros d' Hd'. split; [done|].
        unfold instance_of. by rewrite Hd'. }
  intros include ? [-> Hinc]. apply wlp_bind.
  apply (wlp_mono _ (λ _ s', members_ok s')).
  2:{ destruct include; [|by apply wlp_ret].
      apply wlp_bind, wlp_logger. apply wlp_setattr_member; [done| |done].
      apply (instance_of_state s obj Hs). by apply Hinc. }
  clear s Hs Hinc. intros _ s Hs.
  apply wlp_bind, wlp_py_isinstance. intros ? [= <-].
  destruct (issubclass classes (type_of (st_heap s) obj) Device) eqn:Hdev;
    [|by apply wlp_ret].
  apply wlp_bind. unfold py_type, wlp at 1.
  apply wlp_bind.
  eapply wlp_mono; [|apply inspect_device_cls_good, Hcache].
  intros [subdevice_attrs cache'] s' (Hh & Hpaths & Hcache'). simpl in *.
  assert (members_ok s') as Hs'.
  { destruct Hs as (ns & Hns & Hrest). exists ns. by rewrite Hh. }
  clear Hh. apply wlp_bind.
  apply (wlp_mono _ (λ _ s'', members_ok s'')).
  { intros _ s'' Hs''. by apply wlp_ret. }
  destruct obj as [|l].
  { (* [None] has no attribute to walk along *)
    apply (wlp_for_each _ (λ _ s'', members_ok s'')); [|done].
    intros [] attrs s'' Hattrs _. eapply Forall_forall in Hpaths; [|done].
    destruct Hpaths as [Hne _]. unfold add_subdevice.
    apply wlp_bind. unfold wlp at 1. rewrite walk_run.
    by destruct attrs. }
  specialize (Hlive l eq_refl). apply lookup_lt_is_Some_2 in Hlive as [o Hl].
  assert (type_of (st_heap s) (VObj l) = obj_class o) as Hty.
  { destruct Hs as (ns & -> & _). simpl. unfold deref.
    rewrite lookup_app_l by (by eapply lookup_lt_Some). by rewrite Hl. }
  rewrite Hty in Hpaths.
  apply (wlp_for_each _ (λ _ s'', members_ok s'')); [|done].
  intros [] attrs s'' Hattrs Hs''. eapply Forall_forall in Hpaths; [|done].
  exact (wlp_add_subdevice (obj_class o) l o attrs s'' Hl eq_refl Hpaths Hs'').
Qed.

End Loop.

Lemma resolve_run cls s :
  ∃ log', resolve find_class cls s
          = (Ok (target_of find_class cls), State (st_heap s) log').
Proof.
  destruct s as [h log]. destruct cls as [c|name]; simpl; [by eauto|].
  case_bool_decide; [|by eauto].
  destruct (find_class name) as [exc|c]; by eauto.
Qed.

(** C1: every member of the namespace [class_namespace] returns is an
    instance of the (resolved) target type, and a plain function under the
    ['function'] sentinel. *)
Theorem class_namespace_members fuel cls scope_objs h log ns s' :
  heap_typed classes h → scope_live h scope_objs →
  class_namespace classes find_class fuel cls scope_objs (State h log)
  = (Ok ns, s') →
  ∀ k v, heap_getattr (st_heap s') ns k = Some v →
         ∃ d, target_of find_class cls = Some d
              ∧ instance_of classes (st_heap s') v d.
Proof.
  intros Htyped Hlive Hrun.
  refine (wlp_elim _
    (λ ns s', ∀ k v, heap_getattr (st_heap s') ns k = Some v →
                     ∃ d, target_of find_class cls = Some d
                          ∧ instance_of classes (st_heap s') v d)
    _ _ _ _ Hrun).
  clear ns s' Hrun. unfold class_namespace. apply wlp_bind, wlp_logger, wlp_bind.
  unfold wlp at 1, IterableNamespace_new, alloc. simpl.
  apply wlp_bind. unfold wlp at 1.
  destruct (resolve_run cls
    (State (h ++ [new_namespace])
       (log ++ [(DEBUG, MsgCreateClassNamespace cls)]))) as [log' ->].
  simpl. destruct (target_of find_class cls) as [d|] eqn:Hd.
  - apply wlp_bind.
    eapply wlp_mono; last first.
    { apply (wlp_for_each _
        (λ cache s, cache_ok classes d cache ∧ members_ok classes h d s)).
      - intros cache [name obj] s Hin [Hcache Hs].
        apply wlp_visit; [done| |done|done].
        simpl. intros l ->. by eapply Hlive.
      - split; [apply cache_ok_empty|]. exists new_namespace.
        repeat split. intros k v. simpl. by rewrite lookup_empty. }
    intros cache s [_ Hs]. apply wlp_ret. intros k v Hv.
    exists d. split; [done|]. apply (instance_of_state h d s v Hs).
    destruct Hs as (ns0 & Hh & _ & _ & Hattrs). apply (Hattrs k).
    rewrite Hh in Hv. simpl in Hv. unfold deref in Hv.
    by rewrite list_lookup_middle in Hv.
  - apply wlp_ret. simpl. intros k v. unfold deref.
    rewrite list_lookup_middle by done. simpl. by rewrite lookup_empty.
Qed.

End Members.

Lemma demo_heap_typed : heap_typed (class_table demo_table) demo_heap.
Proof.
  intros l o name ccls Hl Hdev Hin Hcpt.
  apply list_elem_of_In in Hin.
  destruct l as [|[|[|[|[|[|l]]]]]]; simpl in Hl; [..|done];
    injection Hl as <-; try (vm_compute in Hdev; done); try done.
  (* the motor *)
  destruct Hin as [<-|[<-|[]]]; [|done].
  injection Hcpt as <-.
  by exists 1, (PyObj "Gauge" {[ "name" := VObj 0 ]} true None).
Qed.

Lemma demo_scope_live : scope_live demo_heap demo_scope.
Proof.
  intros name l Hin. apply list_elem_of_In in Hin. simpl in Hin.
  destruct Hin as [[= _ <-]|[[= _ <-]|[[= _ <-]|[]]]]; simpl; lia.
Qed.

Lemma class_namespace_members_witness :
  ∃ d, target_of (find_in demo_table) (ClsStr "Gauge") = Some d
       ∧ instance_of (class_table demo_table)
           (st_heap (demo_class_run (ClsStr "Gauge") demo_scope).2)
           (VObj 1) d.
Proof.
  apply (class_namespace_members (class_table demo_table) (find_in demo_table)
           5 (ClsStr "Gauge") demo_scope demo_heap [] (VObj 6)
           (demo_class_run (ClsStr "Gauge") demo_scope).2
           demo_heap_typed demo_scope_live
           ltac:(vm_compute; reflexivity) "g" (VObj 1)).
  vm_compute. reflexivity.
Defined.

(** ** Failure of the type resolution *)

(** C8: a class path other than ['function'] that [find_class] cannot
    resolve is logged at error level (detail at debug level) and the call
    returns the fresh, empty namespace; nothing is raised. *)
Theorem class_namespace_unresolved classes find_class fuel name exc
    scope_objs s :
  name ≠ "function" → find_class name = inl exc →
  class_namespace classes find_class fuel (ClsStr name) scope_objs s
  = (Ok (VObj (length (st_heap s))),
     State (st_heap s ++ [new_namespace])
       (st_log s ++ [(DEBUG, MsgCreateClassNamespace (ClsStr name));
                     (ERROR, MsgTypeNotLoaded name);
                     (DEBUG, MsgExcInfo exc)])).
Proof.
  intros Hname Hfind. unfold class_namespace, bind, resolve. simpl.
  rewrite bool_decide_true by done. rewrite Hfind. simpl.
  by rewrite <- !app_assoc.
Qed.

Lemma class_namespace_unresolved_witness :
  class_namespace (class_table demo_table) (find_in demo_table) 5
    (ClsStr "Valve") demo_scope (State demo_heap [])
  = (Ok (VObj 6),
     State (demo_heap ++ [new_namespace])
       [(DEBUG, MsgCreateClassNamespace (ClsStr "Valve"));
        (ERROR, MsgTypeNotLoaded "Valve");
        (DEBUG, MsgExcInfo ImportError)]).
Proof.
  apply (class_namespace_unresolved (class_table demo_table)
           (find_in demo_table) 5 "Valve" ImportError demo_scope
           (State demo_heap [])).
  - discriminate.
  - reflexivity.
Defined.

(** ** Calls that raise *)

(** C3 (the code at the failing inputs): [tree_namespace] called with its
    default argument raises [AttributeError], and [class_namespace] with the
    ['function'] sentinel raises [TypeError] as soon as the scope holds a
    device with a typed, non-lazy component. *)
Theorem namespace_builders_raise :
  (∀ s, tree_namespace None s = (Raise AttributeError, s))
  ∧ ∀ fuel,
      (class_namespace (class_table demo_table) (find_in demo_table) (S fuel)
         (ClsStr "function") [("m", VObj 2)] (State demo_heap [])).1
      = Raise TypeError.
Proof.
  split; [done|]. intros fuel. vm_compute. reflexivity.
Qed.

(** ** Name collisions in a class namespace *)


(** ** The name tree: basic facts about the store *)

Lemma node_ind' (P : node → Prop) :
  (∀ leaf ch, Forall (λ kc, P kc.2) ch → P (Node leaf ch)) → ∀ n, P n.
Proof.
  intros H. fix IH 1. intros [leaf ch]. apply H.
  induction ch as [|kc ch IHch]; constructor; [apply IH|apply IHch].
Qed.

Lemma deref_app_l (h : list pyobj) o l :
  (l < length h)%nat → deref (h ++ [o]) l = deref h l.
Proof. intros Hl. unfold deref. by rewrite lookup_app_l. Qed.

Lemma deref_app_last (h : list pyobj) o : deref (h ++ [o]) (length h) = o.
Proof. unfold deref. by rewrite list_lookup_middle. Qed.

Lemma deref_ge (h : list pyobj) l :
  (length h ≤ l)%nat → deref h l = bare_object.
Proof. intros Hl. unfold deref. by rewrite lookup_ge_None_2. Qed.

Lemma deref_setattr h l k x h' l' :
  heap_setattr h (VObj l) k x = Some h' →
  deref h' l' = if decide (l' = l) then obj_set k x (deref h l) else deref h l'.
Proof.
  simpl. destruct (h !! l) as [o|] eqn:Hl; [|done].
  destruct (obj_settable o); [|done]. intros [= <-]. unfold deref.
  case_decide as Heq.
  - subst l'. rewrite list_lookup_insert_eq by (by eapply lookup_lt_Some).
    by rewrite Hl.
  - by rewrite list_lookup_insert_ne.
Qed.

Lemma length_setattr h v k x h' :
  heap_setattr h v k x = Some h' → length h' = length h.
Proof.
  destruct v as [|l]; [done|]. simpl.
  destruct (h !! l) as [o|]; [|done]. destruct (obj_settable o); [|done].
  intros [= <-]. by rewrite length_insert.
Qed.



Lemma heap_hasattr_false h v k :
  heap_hasattr h v k = false ↔ heap_getattr h v k = None.
Proof.
  unfold heap_hasattr. rewrite bool_decide_eq_false.
  by rewrite <- eq_None_not_Some.
Qed.

Lemma heap_hasattr_true h v k :
  heap_hasattr h v k = true ↔ is_Some (heap_getattr h v k).
Proof. unfold heap_hasattr. by rewrite bool_decide_eq_true. Qed.

(** *** The heap only grows *)

Lemma grows_refl h : grows h h.
Proof.
  split; [by intros v k x|]. split; [by intros v k|].
  split; [done|]. split; [by intros l Hl|]. intros l Hl. lia.
Qed.

Lemma heap_extends_trans h1 h2 h3 :
  heap_extends h1 h2 → heap_extends h2 h3 → heap_extends h1 h3.
Proof.
  intros (Hlen1 & Hold1 & Hnew1) (Hlen2 & Hold2 & Hnew2).
  split; [lia|]. split.
  - intros l Hl. destruct (Hold1 l Hl) as [<- <-]. apply Hold2. lia.
  - intros l Hl. destruct (decide (l < length h2)%nat) as [Hlt|Hge].
    + destruct (Hnew1 l) as [<- <-]; [lia|]. by apply Hold2.
    + apply Hnew2. lia.
Qed.

Lemma grows_trans h1 h2 h3 : grows h1 h2 → grows h2 h3 → grows h1 h3.
Proof.
  intros (Hp1 & Hn1 & He1) (Hp2 & Hn2 & He2). split; [|split].
  - intros v k x Hx. by apply Hp2, Hp1.
  - intros v k Hx. by apply Hn1, Hn2.
  - by eapply heap_extends_trans.
Qed.

Lemma grows_alloc (h : list pyobj) : grows h (h ++ [new_namespace]).
Proof.
  assert (∀ v k, heap_getattr (h ++ [new_namespace]) v k = heap_getattr h v k)
    as Hsame.
  { intros [|l] k; [done|]. simpl.
    destruct (decide (l < length h)%nat) as [Hlt|Hge].
    - by rewrite deref_app_l.
    - rewrite (deref_ge h) by lia.
      destruct (decide (l = length h)) as [->|Hne].
      + by rewrite deref_app_last.
      + rewrite deref_ge; [done|]. rewrite length_app. simpl. lia. }
  split; [|split].
  - intros v k x. by rewrite Hsame.
  - intros v k. by rewrite Hsame.
  - split; [rewrite length_app; lia|]. split.
    + intros l Hl. by rewrite deref_app_l.
    + intros l. rewrite length_app. simpl. intros Hl.
      assert (l = length h) as -> by lia. by rewrite deref_app_last.
Qed.

(** Setting an attribute that [h0] did not have keeps [h0]'s attributes. *)
Lemma grows_setattr h0 h v k c h' :
  heap_hasattr h0 v k = false →
  grows h0 h → heap_setattr h v k (VObj c) = Some h' → grows h0 h'.
Proof.
  intros Hno%heap_hasattr_false (Hp & Hn & He) Hset.
  destruct v as [|l]; [done|].
  assert (∀ l' k', heap_getattr h' (VObj l') k'
            = if decide (l' = l ∧ k' = k) then Some (VObj c)
              else heap_getattr h (VObj l') k') as Hget.
  { intros l' k'. simpl. rewrite (deref_setattr _ _ _ _ _ l' Hset).
    destruct (decide (l' = l)) as [->|Hne].
    - simpl. rewrite lookup_insert.
      destruct (decide (k = k')) as [->|Hk].
      + by rewrite decide_True.
      + rewrite decide_False; [done|]. by intros [_ ->].
    - rewrite decide_False; [done|]. by intros [-> _]. }
  split; [|split].
  - intros [|l'] k' x Hx; [done|]. rewrite Hget.
    case_decide as Heq; [|by apply Hp].
    destruct Heq as [-> ->]. congruence.
  - intros [|l'] k'; [done|]. rewrite Hget.
    case_decide as Heq; [done|]. apply Hn.
  - eapply heap_extends_trans; [exact He|].
    split; [by rewrite (length_setattr _ _ _ _ _ Hset)|]. split.
    + intros l' _. rewrite (deref_setattr _ _ _ _ _ l' Hset).
      by case_decide; subst.
    + intros l'. rewrite (length_setattr _ _ _ _ _ Hset). lia.
Qed.

(** *** What one attachment does *)

Lemma attach_run obj key sub s :
  attach obj key sub s
  = match heap_setattr (st_heap s) obj key sub with
    | Some h' => (Ok obj, State h' (st_log s))
    | None =>
        (Ok (VObj (length (st_heap s))),
         State (st_heap s ++ [obj_set key sub new_namespace])
           (st_log s ++ [(WARNING, MsgNotAValidNode obj)]))
    end.
Proof.
  unfold attach, try_except, bind, setattr.
  destruct (heap_setattr (st_heap s) obj key sub) as [h'|] eqn:Hset; [done|].
  simpl. by rewrite list_lookup_middle, insert_app_r_alt, Nat.sub_diag.
Qed.


Lemma unpack_node_grows n :
  ∀ s, wp (unpack_node n)
          (λ v s', (∃ c, v = VObj c) ∧ grows (st_heap s) (st_heap s')) s.
Proof.
  induction n as [leaf ch IH] using node_ind'. intros s. simpl.
  apply wp_bind.
  apply (wp_mono _ (λ v s', (∃ c, v = VObj c)
                            ∧ grows (st_heap s) (st_heap s'))).
  2:{ destruct leaf as [[|l]|]; [| |];
        (split; [by eauto|]); try apply grows_refl; apply grows_alloc. }
  intros obj s0 Hobj.
  apply (wp_for_each _ (λ v s', (∃ c, v = VObj c)
                                ∧ grows (st_heap s) (st_heap s')));
    [|done].
  clear obj s0 Hobj. intros obj [key value] s0 Hin [[c ->] Hg].
  eapply Forall_forall in IH; [|exact Hin]. simpl in IH.
  unfold unpack_item. apply wp_bind. unfold wp at 1, hasattr.
  destruct (heap_hasattr (st_heap s0) (VObj c) key) eqn:Hhas.
  - apply heap_hasattr_true in Hhas as [old Hold].
    apply wp_bind. unfold wp at 1, getattr. rewrite Hold.
    apply wp_bind, wp_logger, wp_ret. by eauto.
  - apply wp_bind. eapply wp_mono; [|apply IH].
    intros sub s1 [[csub ->] Hg1]. unfold wp. rewrite attach_run.
    destruct (heap_setattr (st_heap s1) (VObj c) key (VObj csub)) as [h'|]
      eqn:Hset; simpl.
    + split; [by eauto|]. eapply grows_trans; [exact Hg|].
      by eapply grows_setattr.
    + split; [by eauto|]. eapply grows_trans; [exact Hg|].
      eapply grows_trans; [exact Hg1|].
      eapply (grows_setattr _ (st_heap s1 ++ [new_namespace])
                (VObj (length (st_heap s1))) key csub).
      * apply heap_hasattr_false. simpl. by rewrite deref_ge.
      * apply grows_alloc.
      * by apply heap_setattr_last.
Qed.

(** *** The log is only appended to *)

Lemma log_framed_intro {A} (m : M A) :
  (∀ h, ∃ r h' w, ∀ log0, m (State h log0) = (r, State h' (log0 ++ w))) →
  log_framed m.
Proof.
  intros H h log. destruct (H h) as (r & h' & w & Hm).
  by rewrite (Hm log), (Hm []).
Qed.

Lemma log_framed_elim {A} (m : M A) h :
  log_framed m →
  ∃ r h' w, ∀ log0, m (State h log0) = (r, State h' (log0 ++ w)).
Proof.
  intros H. eexists _, _, _. intros log0. by rewrite (H h log0).
Qed.

Lemma log_framed_ret {A} (a : A) : log_framed (ret a).
Proof. intros h log. simpl. by rewrite app_nil_r. Qed.

Lemma log_framed_bind {A B} (m : M A) (f : A → M B) :
  log_framed m → (∀ a, log_framed (f a)) → log_framed (bind m f).
Proof.
  intros Hm Hf. apply log_framed_intro. intros h.
  destruct (log_framed_elim m h Hm) as (r & h' & w & Hrun).
  destruct r as [a| |].
  - destruct (log_framed_elim (f a) h' (Hf a)) as (r2 & h2 & w2 & Hrun2).
    exists r2, h2, (w ++ w2). intros log0. unfold bind.
    by rewrite Hrun, Hrun2, app_assoc.
  - exists (Raise e), h', w. intros log0. unfold bind. by rewrite Hrun.
  - exists OutOfFuel, h', w. intros log0. unfold bind. by rewrite Hrun.
Qed.

Lemma log_framed_logger lv msg : log_framed (logger lv msg).
Proof. by intros h log. Qed.

Lemma log_framed_alloc o : log_framed (alloc o).
Proof. intros h log. simpl. by rewrite app_nil_r. Qed.

Lemma log_framed_hasattr v k : log_framed (hasattr v k).
Proof. intros h log. simpl. by rewrite app_nil_r. Qed.

Lemma log_framed_getattr v k : log_framed (getattr v k).
Proof.
  intros h log. unfold getattr. simpl.
  destruct (heap_getattr h v k); simpl; by rewrite app_nil_r.
Qed.

Lemma log_framed_setattr v k x : log_framed (setattr v k x).
Proof.
  intros h log. unfold setattr. simpl.
  destruct (heap_setattr h v k x); simpl; by rewrite app_nil_r.
Qed.

Lemma log_framed_try_except {A} (m : M A) e0 handler :
  log_framed m → log_framed handler → log_framed (try_except m e0 handler).
Proof.
  intros Hm Hh. apply log_framed_intro. intros h.
  destruct (log_framed_elim m h Hm) as (r & h' & w & Hrun).
  destruct r as [a|e|].
  - exists (Ok a), h', w. intros log0. unfold try_except. by rewrite Hrun.
  - destruct (decide (e = e0)) as [->|Hne].
    + destruct (log_framed_elim handler h' Hh) as (r2 & h2 & w2 & Hrun2).
      exists r2, h2, (w ++ w2). intros log0. unfold try_except.
      by rewrite Hrun, bool_decide_true, Hrun2, app_assoc.
    + exists (Raise e), h', w. intros log0. unfold try_except.
      by rewrite Hrun, bool_decide_false.
  - exists OutOfFuel, h', w. intros log0. unfold try_except. by rewrite Hrun.
Qed.

Lemma log_framed_for_each {A B} (body : B → A → M B) xs :
  (∀ acc x, x ∈ xs → log_framed (body acc x)) →
  ∀ acc, log_framed (for_each body xs acc).
Proof.
  induction xs as [|x xs IH]; intros Hbody acc; simpl.
  - apply log_framed_ret.
  - apply log_framed_bind; [apply Hbody; by left|].
    intros acc'. apply IH. intros acc'' y Hy. apply Hbody. by right.
Qed.

Lemma log_framed_attach obj key sub : log_framed (attach obj key sub).
Proof.
  apply log_framed_try_except.
  - apply log_framed_bind; [apply log_framed_setattr|].
    intros _. apply log_framed_ret.
  - apply log_framed_bind; [apply log_framed_logger|]. intros _.
    apply log_framed_bind; [apply log_framed_alloc|]. intros obj'.
    apply log_framed_bind; [apply log_framed_setattr|]. intros _.
    apply log_framed_ret.
Qed.

Lemma log_framed_unpack_node n : log_framed (unpack_node n).
Proof.
  induction n as [leaf ch IH] using node_ind'. simpl.
  apply log_framed_bind.
  { destruct leaf as [[|l]|];
      [apply log_framed_alloc|apply log_framed_ret|apply log_framed_alloc]. }
  intros obj. apply log_framed_for_each. intros acc [key value] Hin.
  eapply Forall_forall in IH; [|exact Hin]. simpl in IH.
  unfold unpack_item. apply log_framed_bind; [apply log_framed_hasattr|].
  intros [].
  - apply log_framed_bind; [apply log_framed_getattr|]. intros old.
    apply log_framed_bind; [apply log_framed_logger|]. intros _.
    apply log_framed_ret.
  - apply log_framed_bind; [exact IH|]. intros sub. apply log_framed_attach.
Qed.

(** *** The first loop: validation and accumulation *)

Lemma check_keys_run name keys s :
  ∃ w, check_keys name keys s
       = (Ok (forallb valid_key keys), State (st_heap s) (st_log s ++ w))
       ∧ (forallb valid_key keys = true → w = [])
       ∧ (forallb valid_key keys = false →
          ∃ key r, key ∈ keys ∧ valid_key key = false
                   ∧ key_warning name key r ∧ w = [r]).
Proof.
  induction keys as [|key keys IH]; simpl.
  - exists []. rewrite app_nil_r. destruct s. by repeat split.
  - destruct (iskeyword key) eqn:Hkw.
    { assert (valid_key key = false) as Hv
        by (unfold valid_key; by rewrite Hkw).
      rewrite Hv. simpl.
      eexists. split; [done|]. split; [done|]. intros _.
      exists key, (WARNING, MsgReservedKeyword key name).
      repeat split; [by left|done|by left]. }
    destruct (isidentifier key) eqn:Hid; simpl.
    + assert (valid_key key = true) as Hv
        by (unfold valid_key; by rewrite Hkw, Hid).
      rewrite Hv. simpl.
      destruct IH as (w & -> & Hv' & Hi). exists w. split; [done|].
      split; [done|]. intros (k & r & Hk & Hr)%Hi.
      exists k, r. split; [by right|done].
    + assert (valid_key key = false) as Hv
        by (unfold valid_key; by rewrite Hkw, Hid).
      rewrite Hv. simpl.
      eexists. split; [done|]. split; [done|]. intros _.
      exists key, (WARNING, MsgInvalidIdentifier key name).
      repeat split; [by left|done|by right].
Qed.

Lemma add_name_run t name obj s :
  ∃ w, add_name t (name, obj) s
       = (Ok (if valid_name name then store_obj (split "_" name) obj t else t),
          State (st_heap s) (st_log s ++ w))
       ∧ (valid_name name = false →
          ∃ key r, key ∈ split "_" name ∧ valid_key key = false
                   ∧ key_warning name key r ∧ r ∈ w).
Proof.
  destruct (check_keys_run name (split "_" name) s) as (w & Hrun & _ & Hbad).
  exists w. unfold add_name, bind. rewrite Hrun. fold (valid_name name).
  split; [by destruct (valid_name name)|].
  intros (key & r & Hk & Hv & Hr & ->)%Hbad. exists key, r.
  repeat split; try done. by left.
Qed.

Lemma tree_loop_run objs :
  ∀ t s,
    ∃ w, for_each add_name objs t s
         = (Ok (tree_dict_from t objs), State (st_heap s) (st_log s ++ w))
         ∧ ∀ name obj, (name, obj) ∈ objs → valid_name name = false →
             ∃ key r, key ∈ split "_" name ∧ valid_key key = false
                      ∧ key_warning name key r ∧ r ∈ w.
Proof.
  induction objs as [|[name obj] objs IH]; intros t s; cbn [for_each].
  - exists []. rewrite app_nil_r. destruct s. split; [done|].
    intros name obj Hin. by apply elem_of_nil in Hin.
  - destruct (add_name_run t name obj s) as (w1 & Hrun1 & Hw1).
    unfold bind. rewrite Hrun1. unfold tree_dict_from. cbn [fold_left fst snd].
    fold (tree_dict_from
            (if valid_name name then store_obj (split "_" name) obj t else t)
            objs).
    destruct (IH (if valid_name name then store_obj (split "_" name) obj t
                  else t)
                (State (st_heap s) (st_log s ++ w1))) as (w2 & -> & Hw2).
    exists (w1 ++ w2). simpl. rewrite app_assoc. split; [done|].
    intros name' obj' Hin Hbad.
    apply elem_of_cons in Hin as [[= -> ->]|Hin].
    + destruct (Hw1 Hbad) as (key & r & ? & ? & ? & ?).
      exists key, r. repeat split; try done. apply elem_of_app. by left.
    + destruct (Hw2 _ _ Hin Hbad) as (key & r & ? & ? & ? & ?).
      exists key, r. repeat split; try done. apply elem_of_app. by right.
Qed.

(** [tree_namespace] is the unpacking of [tree_dict]; it always returns,
    and the warnings of the first loop stay in the log. *)
Lemma tree_namespace_run objs h log :
  ∃ c h' logu (w : list log_record),
    (unpack_node (tree_dict objs) (State h [])).1 = Ok (VObj c)
    ∧ st_heap (unpack_node (tree_dict objs) (State h [])).2 = h'
    ∧ tree_namespace (Some objs) (State h log) = (Ok (VObj c), State h' logu)
    ∧ (∀ r, r ∈ w → r ∈ logu)
    ∧ ∀ name obj, (name, obj) ∈ objs → valid_name name = false →
        ∃ key r, key ∈ split "_" name ∧ valid_key key = false
                 ∧ key_warning name key r ∧ r ∈ w.
Proof.
  pose proof (unpack_node_grows (tree_dict objs) (State h [])) as Hwp.
  apply wp_elim in Hwp as (v & s1 & Hrun0 & [c ->] & _).
  destruct (tree_loop_run objs nested_defaultdict
              (State h (log ++ [(DEBUG, MsgCreateTreeNamespace (map fst objs))])))
    as (w & Hloop & Hw).
  cbn [st_heap st_log] in Hloop.
  eexists c, (st_heap s1), _, w. rewrite Hrun0. split; [done|]. split; [done|].
  split; [|split; [|exact Hw]].
  - unfold tree_namespace, bind at 1, logger. simpl.
    unfold bind at 1. rewrite Hloop. fold (tree_dict objs).
    unfold bind at 1. rewrite (log_framed_unpack_node (tree_dict objs)).
    rewrite Hrun0. cbn [fst snd]. unfold bind, ns_keys, logger, ret.
    cbn [st_heap st_log]. reflexivity.
  - intros r Hr. simpl. rewrite !elem_of_app. by eauto.
Qed.

(** ** Reaching the nodes of a conflict-free tree *)




Lemma elem_of_flat_map {A B} (f : A → list B) (l : list A) (y : B) :
  y ∈ flat_map f l ↔ ∃ x, x ∈ l ∧ y ∈ f x.
Proof.
  rewrite list_elem_of_In, in_flat_map. split.
  - intros (x & Hx & Hy). exists x. by rewrite !list_elem_of_In.
  - intros (x & Hx & Hy). exists x. by rewrite <- !list_elem_of_In.
Qed.

Lemma branch_locs_node leaf ch :
  branch_locs (Node leaf ch)
  = own_branch (Node leaf ch) ++ flat_map (λ kc, branch_locs kc.2) ch.
Proof. done. Qed.















(** ** From names to the tree *)

Lemma split_nonempty sep s : split sep s ≠ [].
Proof.
  destruct s as [|c s]; simpl; [done|].
  destruct (Ascii.eqb c sep); [done|]. by destruct (split sep s).
Qed.

Lemma split_inj sep s1 : ∀ s2, split sep s1 = split sep s2 → s1 = s2.
Proof.
  induction s1 as [|c1 s1 IH]; intros [|c2 s2]; simpl; [done|..].
  - destruct (Ascii.eqb c2 sep).
    + intros [= H]. symmetry in H. by apply split_nonempty in H.
    + by destruct (split sep s2).
  - destruct (Ascii.eqb c1 sep).
    + intros [= H]. by apply split_nonempty in H.
    + by destruct (split sep s1).
  - destruct (Ascii.eqb_spec c1 sep) as [->|Hc1];
      destruct (Ascii.eqb_spec c2 sep) as [->|Hc2].
    + intros [= H]. by rewrite (IH s2 H).
    + by destruct (split sep s2).
    + by destruct (split sep s1).
    + destruct (split sep s1) as [|hd1 tl1] eqn:H1;
        [by apply split_nonempty in H1|].
      destruct (split sep s2) as [|hd2 tl2] eqn:H2;
        [by apply split_nonempty in H2|].
      intros [= Hc Hhd Htl]. subst. f_equal. apply IH. congruence.
Qed.

(** No segment contains the separator; in particular the reserved key
    ['_obj'] never is a segment. *)
Lemma split_no_sep sep s key :
  key ∈ split sep s → all_chars (λ c, negb (Ascii.eqb c sep)) key = true.
Proof.
  revert key. induction s as [|c s IH]; intros key; simpl.
  - by intros ->%list_elem_of_singleton.
  - destruct (Ascii.eqb c sep) eqn:Hc.
    + intros [->|Hin]%elem_of_cons; [done|]. by apply IH.
    + destruct (split sep s) as [|hd tl] eqn:Hs.
      * intros ->%list_elem_of_singleton. simpl. by rewrite Hc.
      * intros [->|Hin]%elem_of_cons.
        -- simpl. rewrite Hc. simpl. apply IH. by left.
        -- apply IH. by right.
Qed.

Lemma reserved_key_not_segment name : "_obj" ∉ split "_" name.
Proof. intros Hin. by apply split_no_sep in Hin. Qed.

Lemma lookup_child_update_eq k f ch :
  lookup_child k (child_update k f ch)
  = Some (f (default nested_defaultdict (lookup_child k ch))).
Proof.
  induction ch as [|[k' n] ch IH]; simpl.
  - by rewrite String.eqb_refl.
  - destruct (String.eqb_spec k' k) as [->|Hne]; simpl.
    + by rewrite String.eqb_refl.
    + destruct (String.eqb_spec k' k); [done|]. apply IH.
Qed.

Lemma lookup_child_update_ne k k' f ch :
  k' ≠ k → lookup_child k' (child_update k f ch) = lookup_child k' ch.
Proof.
  intros Hne. induction ch as [|[k0 n] ch IH]; simpl.
  - by destruct (String.eqb_spec k k').
  - destruct (String.eqb_spec k0 k) as [->|Hne0]; simpl.
    + by destruct (String.eqb_spec k k').
    + destruct (String.eqb_spec k0 k'); [done|]. apply IH.
Qed.

Lemma leaf_at_empty p : leaf_at nested_defaultdict p = None.
Proof. by destruct p. Qed.

Lemma leaf_at_store_eq keys obj :
  ∀ t, leaf_at (store_obj keys obj t) keys = Some obj.
Proof.
  unfold leaf_at. induction keys as [|k keys IH]; intros t; simpl; [done|].
  rewrite lookup_child_update_eq. apply IH.
Qed.

Lemma leaf_at_store_ne keys obj :
  ∀ keys' t, keys' ≠ keys →
             leaf_at (store_obj keys obj t) keys' = leaf_at t keys'.
Proof.
  unfold leaf_at.
  induction keys as [|k keys IH]; intros [|k' keys'] [leaf ch] Hne;
    simpl; try done.
  destruct (decide (k' = k)) as [->|Hk].
  - rewrite lookup_child_update_eq.
    rewrite IH by congruence.
    destruct (lookup_child k ch) as [c|]; simpl; [done|].
    apply leaf_at_empty.
  - by rewrite lookup_child_update_ne.
Qed.

Lemma tree_dict_from_other name objs :
  ∀ t, name ∉ map fst objs →
       leaf_at (tree_dict_from t objs) (split "_" name)
       = leaf_at t (split "_" name).
Proof.
  induction objs as [|[name' obj'] objs IH]; intros t Hnot; [done|].
  cbn [map fst] in Hnot. apply not_elem_of_cons in Hnot as [Hne Hnot].
  unfold tree_dict_from. cbn [fold_left fst snd].
  fold (tree_dict_from
          (if valid_name name' then store_obj (split "_" name') obj' t else t)
          objs).
  rewrite IH by done. destruct (valid_name name'); [|done].
  apply leaf_at_store_ne. intros Heq. by apply split_inj in Heq.
Qed.

(** With distinct names, the object of every valid name sits in the
    dictionary at the path of the name's segments. *)
Lemma tree_dict_leaf objs name obj :
  NoDup (map fst objs) → (name, obj) ∈ objs → valid_name name = true →
  leaf_at (tree_dict objs) (split "_" name) = Some obj.
Proof.
  unfold tree_dict. generalize nested_defaultdict.
  induction objs as [|[name' obj'] objs IH]; intros t Hnd Hin Hvalid.
  { by apply elem_of_nil in Hin. }
  cbn [map fst] in Hnd. apply NoDup_cons in Hnd as [Hnot Hnd].
  unfold tree_dict_from. cbn [fold_left fst snd].
  fold (tree_dict_from
          (if valid_name name' then store_obj (split "_" name') obj' t else t)
          objs).
  apply elem_of_cons in Hin as [[= <- <-]|Hin].
  - rewrite tree_dict_from_other by done. rewrite Hvalid.
    apply leaf_at_store_eq.
  - by apply IH.
Qed.

Lemma tree_dict_skip l1 name obj l2 :
  valid_name name = false →
  tree_dict (l1 ++ (name, obj) :: l2) = tree_dict (l1 ++ l2).
Proof.
  intros Hbad. unfold tree_dict, tree_dict_from.
  rewrite !fold_left_app. simpl. by rewrite Hbad.
Qed.

Lemma valid_name_false name key :
  key ∈ split "_" name →
  iskeyword key = true ∨ isidentifier key = false →
  valid_name name = false.
Proof.
  intros Hin Hbad. apply not_true_is_false. unfold valid_name.
  rewrite forallb_forall. intros Hall.
  apply list_elem_of_In, Hall in Hin. unfold valid_key in Hin.
  apply andb_true_iff in Hin as [Hkw Hid].
  destruct Hbad as [Hbad|Hbad]; [by rewrite Hbad in Hkw|congruence].
Qed.

(** *** The keys of the dictionaries are distinct *)

Lemma child_update_key_elem k f ch k' :
  k' ∈ map fst (child_update k f ch) → k' = k ∨ k' ∈ map fst ch.
Proof.
  induction ch as [|[k0 n] ch IH]; simpl.
  - intros ->%list_elem_of_singleton. by left.
  - destruct (String.eqb k0 k); simpl; [by right|].
    intros [->|Hin]%elem_of_cons; [right; by left|].
    destruct (IH Hin) as [->|?]; [by left|right; by right].
Qed.

Lemma child_update_keys k f ch :
  NoDup (map fst ch) → NoDup (map fst (child_update k f ch)).
Proof.
  induction ch as [|[k0 n] ch IH]; simpl.
  - intros _. apply NoDup_singleton.
  - intros [Hnot Hnd]%NoDup_cons.
    destruct (String.eqb_spec k0 k) as [->|Hne]; simpl.
    + by apply NoDup_cons.
    + apply NoDup_cons. split; [|by apply IH].
      intros [->|Hin]%child_update_key_elem; done.
Qed.

Lemma child_update_Forall (P : node → Prop) k f ch :
  (∀ n, P n → P (f n)) → P nested_defaultdict →
  Forall (λ kc, P kc.2) ch →
  Forall (λ kc, P kc.2) (child_update k f ch).
Proof.
  intros Hf Hempty. induction ch as [|[k0 n] ch IH]; simpl.
  - intros _. apply Forall_singleton. simpl. by apply Hf.
  - intros [Hn Hch]%Forall_cons.
    destruct (String.eqb k0 k); apply Forall_cons; simpl in *; auto.
Qed.

Lemma distinct_keys_empty : distinct_keys nested_defaultdict.
Proof. constructor; [constructor|done]. Qed.

Lemma distinct_keys_store keys obj :
  ∀ t, distinct_keys t → distinct_keys (store_obj keys obj t).
Proof.
  induction keys as [|k keys IH]; intros [leaf ch]; inversion 1; subst; simpl.
  - by constructor.
  - constructor; [by apply child_update_keys|].
    apply child_update_Forall; [exact IH|exact distinct_keys_empty|done].
Qed.

Lemma tree_dict_distinct objs : distinct_keys (tree_dict objs).
Proof.
  unfold tree_dict. generalize distinct_keys_empty.
  generalize nested_defaultdict.
  induction objs as [|[name obj] objs IH]; intros t Ht; [done|].
  unfold tree_dict_from. cbn [fold_left fst snd]. apply IH.
  destruct (valid_name name); [by apply distinct_keys_store|done].
Qed.



(** ** [tree_namespace] on a conflict-free tree *)








(** ** The claims on [tree_namespace] *)





Lemma tree_namespace_total objs h log :
  ∃ c s',
    tree_namespace (Some objs) (State h log) = (Ok (VObj c), s')
    ∧ grows h (st_heap s').
Proof.
  destruct (tree_namespace_run objs h log)
    as (c & h' & logu & w & Hres & Hheap & Hrun & _).
  pose proof (unpack_node_grows (tree_dict objs) (State h [])) as Hg.
  apply wp_elim in Hg as (v & s1 & Hrun1 & _ & Hg).
  rewrite Hrun1 in Hheap. simpl in *. subst h'.
  exists c, (State (st_heap s1) logu). by split.
Qed.



(** C6: a name with a segment that is a keyword or not an identifier
    leaves the result and the heap exactly as they are without it, and a
    warning about one of its segments is logged. *)
Theorem tree_namespace_drops_invalid l1 name obj l2 key h log :
  key ∈ split "_" name →
  iskeyword key = true ∨ isidentifier key = false →
  ∃ root h' log1 log2,
    tree_namespace (Some (l1 ++ (name, obj) :: l2)) (State h log)
    = (Ok root, State h' log1)
    ∧ tree_namespace (Some (l1 ++ l2)) (State h log)
      = (Ok root, State h' log2)
    ∧ ∃ key' r, key' ∈ split "_" name ∧ key_warning name key' r ∧ r ∈ log1.
Proof.
  intros Hkey Hbad.
  pose proof (valid_name_false name key Hkey Hbad) as Hinvalid.
  destruct (tree_namespace_run (l1 ++ (name, obj) :: l2) h log)
    as (c1 & h1 & log1 & w1 & Hres1 & Hheap1 & Hrun1 & Hsub1 & Hw1).
  destruct (tree_namespace_run (l1 ++ l2) h log)
    as (c2 & h2 & log2 & w2 & Hres2 & Hheap2 & Hrun2 & _).
  rewrite (tree_dict_skip l1 name obj l2 Hinvalid) in Hres1, Hheap1.
  rewrite Hres1 in Hres2. injection Hres2 as <-.
  rewrite Hheap1 in Hheap2. subst h2.
  exists (VObj c1), h1, log1, log2. split; [done|]. split; [done|].
  destruct (Hw1 name obj) as (key' & r & Hk' & _ & Hr & Hin); [|done|].
  { apply elem_of_app. right. by left. }
  exists key', r. split; [done|]. split; [done|]. by apply Hsub1.
Qed.

Lemma tree_namespace_drops_invalid_witness :
  ∃ root h' log1 log2,
    tree_namespace (Some ([("a", VObj 1)] ++ [("class_motor", VObj 3)]))
      (State tree_heap []) = (Ok root, State h' log1)
    ∧ tree_namespace (Some ([("a", VObj 1)] ++ [])) (State tree_heap [])
      = (Ok root, State h' log2)
    ∧ ∃ key' r, key' ∈ split "_" "class_motor"
                ∧ key_warning "class_motor" key' r ∧ r ∈ log1.
Proof.
  apply (tree_namespace_drops_invalid [("a", VObj 1)] "class_motor" (VObj 3)
           [] "class" tree_heap []).
  - apply (bool_decide_unpack _). vm_compute. exact I.
  - left. vm_compute. reflexivity.
Defined.






(** ** Aliasing *)

(** Where the same object [x] is bound to ["a"] and to ["a_b"], the
    attribute [x.b], set to the object of ["a_b_b"] while the child is
    unpacked, is then overwritten by [x] itself, without a warning: the
    [hasattr] test precedes the unpacking of the child. *)
Lemma tree_namespace_alias_overwrite :
  (tree_run [("a", VObj 1); ("a_b", VObj 1); ("a_b_b", VObj 3)]).1
  = Ok (VObj 4)
  ∧ heap_getattr
      (st_heap (tree_run [("a", VObj 1); ("a_b", VObj 1); ("a_b_b", VObj 3)]).2)
      (VObj 1) "b" = Some (VObj 1)
  ∧ Forall (λ r, r.1 = DEBUG)
      (st_log (tree_run [("a", VObj 1); ("a_b", VObj 1); ("a_b_b", VObj 3)]).2).
Proof.
  split; [vm_compute; reflexivity|]. split; [vm_compute; reflexivity|].
  vm_compute. repeat constructor.
Qed.

(** * Further properties *)

(** ** Discovery is exact and memoized *)

Lemma wlp_true {A} (m : M A) s : wlp m (λ _ _, True) s.
Proof. unfold wlp. by destruct (m s) as [[a| |] s']. Qed.

Section DiscoveryExact.

Variable classes : class_id → pyclass.

Lemma good_path_cons_iff d c name rest :
  issubclass classes c Device = true →
  name ∈ cls_component_names (classes c) →
  good_path classes d c (name :: rest)
  ↔ ∃ ccls,
      cls_dict (classes c) !! name = Some (Component (Some ccls) false)
      ∧ ((rest = [] ∧ matches classes ccls d)
         ∨ good_path classes d ccls rest).
Proof.
  intros Hdev Hname. unfold good_path. simpl.
  rewrite Hdev, bool_decide_true by done. simpl. split.
  - intros [_ (t & Ht & Hm)].
    destruct (cls_dict (classes c) !! name) as [[[ccls|] []]|]; try done.
    exists ccls. split; [done|].
    destruct rest as [|k rest]; [left|right].
    + simpl in Ht. injection Ht as <-. by split.
    + split; [done|]. by eauto.
  - intros (ccls & -> & [[-> Hm]|[_ (t & Ht & Hm)]]);
      (split; [done|]); by eauto.
Qed.

Lemma good_path_head d c p :
  good_path classes d c p →
  ∃ name rest, p = name :: rest
               ∧ issubclass classes c Device = true
               ∧ name ∈ cls_component_names (classes c).
Proof.
  intros [Hne (t & Ht & _)]. destruct p as [|name rest]; [done|].
  exists name, rest. split; [done|]. simpl in Ht.
  destruct (issubclass classes c Device); [|done].
  case_bool_decide; [done|]. done.
Qed.

Lemma cache_exact_empty d : cache_exact classes d ∅.
Proof. intros c ps. by rewrite lookup_empty. Qed.

Lemma cache_exact_insert d cache c attrs :
  cache_exact classes d cache →
  (∀ p, p ∈ attrs ↔ good_path classes d c p) →
  cache_exact classes d (<[c:=attrs]> cache).
Proof.
  intros Hcache Hattrs c' ps'. rewrite lookup_insert.
  case_decide as Hcc; [|by apply Hcache]. subst c'. by intros [= <-].
Qed.

Lemma inspect_device_cls_exact_wlp fuel :
  ∀ c d cache s,
    cache_exact classes d cache →
    wlp (inspect_device_cls classes fuel c d cache)
        (λ r _, (∀ p, p ∈ r.1 ↔ good_path classes d c p)
                ∧ cache_exact classes d r.2) s.
Proof.
  induction fuel as [|fuel IH]; intros c d cache s Hcache;
    cbn [inspect_device_cls].
  { destruct (cache !! c) as [ps|] eqn:Hc; [|done].
    apply wlp_ret. split; [by apply Hcache|done]. }
  destruct (cache !! c) as [ps|] eqn:Hc.
  { apply wlp_ret. split; [by apply Hcache|done]. }
  apply wlp_bind.
  apply (wlp_mono _ (λ r _, (∀ p, p ∈ r.1 ↔ good_path classes d c p)
                            ∧ cache_exact classes d r.2)).
  { intros [attrs cache0] s' [Hattrs Hc0]. apply wlp_ret. simpl in *.
    split; [done|]. by apply cache_exact_insert. }
  destruct (issubclass classes c Device) eqn:Hdev.
  2:{ apply wlp_ret. split; [|done]. intros p. split.
      - by intros ?%elem_of_nil.
      - intros (name & rest & _ & Hd & _)%good_path_head. congruence. }
  apply wlp_bind, wlp_logger, wlp_bind.
  set (body := λ '(attrs, cache0) cpt_name, bind _ _).
  assert (∀ names attrs0 cache0 s0,
    cache_exact classes d cache0 →
    (∀ n, n ∈ names → n ∈ cls_component_names (classes c)) →
    wlp (for_each body names (attrs0, cache0))
        (λ r _, cache_exact classes d r.2
                ∧ ∀ p, p ∈ r.1
                       ↔ p ∈ attrs0
                         ∨ ∃ n rest, p = n :: rest ∧ n ∈ names
                                     ∧ good_path classes d c p) s0)
    as Hloop.
  { induction names as [|name names IHn]; intros attrs0 cache0 s0 Hc0 Hsub.
    { apply wlp_ret. split; [done|]. intros p. split; [by left|].
      intros [?|(n & rest & _ & ?%elem_of_nil & _)]; done. }
    cbn [for_each]. apply wlp_bind. unfold body at 1.
    apply wlp_bind. unfold class_getattr.
    assert (name ∈ cls_component_names (classes c)) as Hname
      by (apply Hsub; by left).
    pose proof (λ rest, good_path_cons_iff d c name rest Hdev Hname) as Hiff.
    assert (∀ attrs1 cache1 s1,
      cache_exact classes d cache1 →
      (∀ p, p ∈ attrs1
            ↔ p ∈ attrs0 ∨ ∃ rest, p = name :: rest
                                   ∧ good_path classes d c p) →
      wlp (for_each body names (attrs1, cache1))
          (λ r _, cache_exact classes d r.2
                  ∧ ∀ p, p ∈ r.1
                         ↔ p ∈ attrs0
                           ∨ ∃ n rest, p = n :: rest ∧ n ∈ name :: names
                                       ∧ good_path classes d c p) s1)
      as Hnext.
    { intros attrs1 cache1 s1 Hc1 Hattrs1.
      eapply wlp_mono; [|apply IHn; [done|]].
      2:{ intros n Hn. apply Hsub. by right. }
      intros [attrs2 cache2] s2 [Hc2 Hattrs2]. simpl in *.
      split; [done|]. intros p. rewrite Hattrs2, Hattrs1. split.
      - intros [[?|(rest & -> & ?)]|(n & rest & -> & ? & ?)].
        + by left.
        + right. exists name, rest. split; [done|]. split; [by left|done].
        + right. exists n, rest. split; [done|]. split; [by right|done].
      - intros [?|(n & rest & -> & [->|?]%elem_of_cons & ?)].
        + left. by left.
        + left. right. by eauto.
        + right. by eauto. }
    destruct (cls_dict (classes c) !! name) as [[ocls lazy]|] eqn:Hcpt;
      [|done].
    apply wlp_ret. simpl.
    assert (ocls = None ∨ lazy = true →
            ∀ rest, ¬ good_path classes d c (name :: rest)) as Hskip.
    { intros Hs rest (ccls & [= -> ->] & _)%Hiff. by destruct Hs. }
    destruct ocls as [ccls|].
    2:{ apply wlp_ret, Hnext; [done|]. intros p. split; [by left|].
        intros [?|(rest & -> & Hg)]; [done|].
        exfalso. eapply Hskip; [by left|done]. }
    destruct lazy; simpl.
    { apply wlp_ret, Hnext; [done|]. intros p. split; [by left|].
      intros [?|(rest & -> & Hg)]; [done|].
      exfalso. eapply Hskip; [by right|done]. }
    apply wlp_bind, wlp_py_issubclass. intros d' ->.
    apply wlp_bind. eapply wlp_mono; [|by apply IH].
    intros [subattrs cache1] s1 [Hsubattrs Hc1]. simpl in *.
    apply wlp_ret, Hnext; [done|]. intros p.
    rewrite elem_of_app, list_elem_of_fmap. split.
    - intros [Hp|(q & -> & Hq)].
      + destruct (issubclass classes ccls d') eqn:Hm; [|by left].
        apply elem_of_app in Hp as [?|Hp]; [by left|].
        apply list_elem_of_singleton in Hp as ->. right. exists [].
        split; [done|]. apply Hiff. exists ccls. split; [done|]. by left.
      + right. exists q. split; [done|]. apply Hiff. exists ccls.
        split; [done|]. right. by apply Hsubattrs.
    - intros [?|(rest & -> & (ccls' & [= <-] & Hg)%Hiff)].
      { left. destruct (issubclass classes ccls d'); [|done].
        apply elem_of_app. by left. }
      destruct Hg as [[-> Hm]|Hg].
      + left. rewrite Hm. apply elem_of_app. right.
        by apply list_elem_of_singleton.
      + right. exists rest. split; [done|]. by apply Hsubattrs. }
  eapply wlp_mono; [|apply Hloop; done].
  intros [attrs cache0] s0 [Hc0 Hattrs]. simpl in *.
  apply wlp_bind. eapply wlp_mono; [|apply wlp_true].
  intros _ s1 _. apply wlp_ret. simpl. split; [|done].
  intros p. rewrite Hattrs. split.
  - intros [?%elem_of_nil|(n & rest & _ & _ & ?)]; done.
  - intros Hg. right.
    destruct (good_path_head d c p Hg) as (n & rest & -> & _ & Hn).
    by eauto.
Qed.

(** X1: the list [inspect_device_cls] returns holds exactly the paths
    that run through declared, typed, non-lazy component slots of composite
    classes and end in a slot whose class is a subclass of the desired class;
    the cache it hands back holds such lists only. *)
Theorem inspect_device_cls_exact fuel c d cache s attrs cache' s' :
  cache_exact classes d cache →
  inspect_device_cls classes fuel c d cache s = (Ok (attrs, cache'), s') →
  (∀ p, p ∈ attrs ↔ good_path classes d c p)
  ∧ cache_exact classes d cache'.
Proof.
  intros Hcache Hrun.
  exact (wlp_elim _ _ _ _ _
           (inspect_device_cls_exact_wlp fuel c d cache s Hcache) Hrun).
Qed.

Lemma inspect_device_cls_caches fuel c d cache s :
  wlp (inspect_device_cls classes fuel c d cache)
      (λ r _, r.2 !! c = Some r.1) s.
Proof.
  destruct fuel as [|fuel]; cbn [inspect_device_cls];
    destruct (cache !! c) as [ps|] eqn:Hc; try done.
  apply wlp_bind. eapply wlp_mono; [|apply wlp_true].
  intros [attrs cache0] s' _. apply wlp_ret. simpl. apply lookup_insert_eq.
Qed.

(** X2: once a class was inspected, inspecting it again with the cache
    that came back costs nothing: whatever the fuel and the state, the same
    list and the same cache return, nothing is logged and nothing changes. *)
Theorem inspect_device_cls_memo fuel c d cache s attrs cache' s' :
  inspect_device_cls classes fuel c d cache s = (Ok (attrs, cache'), s') →
  ∀ fuel2 s2,
    inspect_device_cls classes fuel2 c d cache' s2 = (Ok (attrs, cache'), s2).
Proof.
  intros Hrun fuel2 s2.
  pose proof (wlp_elim _ _ _ _ _
                (inspect_device_cls_caches fuel c d cache s) Hrun) as H.
  simpl in H.
  destruct fuel2; cbn [inspect_device_cls]; by rewrite H.
Qed.

End DiscoveryExact.

Lemma inspect_device_cls_exact_witness :
  (∀ p, p ∈ [["x"; "gauge"]]
        ↔ good_path (class_table demo_table) (ClsType "Gauge") "Stage" p)
  ∧ cache_exact (class_table demo_table) (ClsType "Gauge") demo_inspect_cache.
Proof.
  apply (inspect_device_cls_exact (class_table demo_table) 3 "Stage"
           (ClsType "Gauge") ∅ (State [] []) [["x"; "gauge"]]
           demo_inspect_cache demo_inspect.2).
  - apply cache_exact_empty.
  - vm_compute. reflexivity.
Defined.

Lemma inspect_device_cls_memo_witness :
  inspect_device_cls (class_table demo_table) 0 "Stage" (ClsType "Gauge")
    demo_inspect_cache (State demo_heap [])
  = (Ok ([["x"; "gauge"]], demo_inspect_cache), State demo_heap []).
Proof.
  apply (inspect_device_cls_memo (class_table demo_table) 3 "Stage"
           (ClsType "Gauge") ∅ (State [] []) [["x"; "gauge"]]
           demo_inspect_cache demo_inspect.2).
  vm_compute. reflexivity.
Defined.

(** ** The first loop of [tree_namespace] *)

Lemma check_keys_warning name keys s :
  check_keys name keys s
  = (Ok (forallb valid_key keys),
     State (st_heap s)
       (st_log s ++ from_option (λ r, [r]) [] (keys_warning name keys))).
Proof.
  unfold keys_warning.
  induction keys as [|key keys IH]; simpl.
  { unfold ret. destruct s. simpl. by rewrite app_nil_r. }
  unfold valid_key at 1 3. destruct (iskeyword key) eqn:Hkw; simpl.
  { by rewrite Hkw. }
  destruct (isidentifier key); simpl; [done|]. by rewrite Hkw.
Qed.

Lemma tree_dict_from_cons t name obj objs :
  tree_dict_from t ((name, obj) :: objs)
  = tree_dict_from
      (if valid_name name then store_obj (split "_" name) obj t else t) objs.
Proof. done. Qed.

Lemma omap_cons_app {A B} (f : A → option B) x l :
  omap f (x :: l) = from_option (λ r, [r]) [] (f x) ++ omap f l.
Proof. simpl. by destruct (f x). Qed.

Lemma tree_loop_log objs :
  ∀ t s,
    for_each add_name objs t s
    = (Ok (tree_dict_from t objs),
       State (st_heap s) (st_log s ++ omap name_warning (map fst objs))).
Proof.
  induction objs as [|[name obj] objs IH]; intros t s.
  { simpl. unfold ret. destruct s. simpl. by rewrite app_nil_r. }
  rewrite tree_dict_from_cons. cbn [map fst]. rewrite omap_cons_app, app_assoc.
  cbn [for_each]. unfold bind, add_name at 1, bind.
  rewrite check_keys_warning. fold (valid_name name). fold (name_warning name).
  destruct (valid_name name); unfold ret; by rewrite IH.
Qed.

Lemma keys_warning_None name keys :
  keys_warning name keys = None ↔ forallb valid_key keys = true.
Proof.
  unfold keys_warning. induction keys as [|key keys IH]; simpl; [done|].
  destruct (valid_key key); simpl; [done|]. split; intros; done.
Qed.

(** X3: the first loop of [tree_namespace] leaves the heap alone and logs,
    for the names in their order, one warning per name with a segment that is
    a keyword or no identifier (about the first such segment, the keyword test
    first) and nothing for the other names; the names it warns about are
    the names it drops. *)
Theorem tree_loop_warnings objs s :
  for_each add_name objs nested_defaultdict s
  = (Ok (tree_dict objs),
     State (st_heap s) (st_log s ++ omap name_warning (map fst objs)))
  ∧ ∀ name, name_warning name = None ↔ valid_name name = true.
Proof.
  split; [apply tree_loop_log|]. intros name. apply keys_warning_None.
Qed.

Lemma tree_dict_from_leaf_inv objs :
  ∀ t p obj,
    leaf_at (tree_dict_from t objs) p = Some obj →
    leaf_at t p = Some obj
    ∨ ∃ name, (name, obj) ∈ objs ∧ valid_name name = true
              ∧ split "_" name = p.
Proof.
  induction objs as [|[name o] objs IH]; intros t p obj H; [by left|].
  rewrite tree_dict_from_cons in H.
  apply IH in H as [H|(name' & ? & ? & ?)].
  - destruct (valid_name name) eqn:Hv; [|by left].
    destruct (decide (p = split "_" name)) as [->|Hne].
    + rewrite leaf_at_store_eq in H. injection H as ->. right.
      exists name. split; [by left|done].
    + rewrite leaf_at_store_ne in H by done. by left.
  - right. exists name'. split; [by right|done].
Qed.

(** X4: storing and looking up in the first loop of [tree_namespace]:
    when the names are distinct, the dictionary it builds holds an object at a
    path of keys exactly when the object is bound to a valid name whose
    segments are that path. *)
Theorem tree_loop_round_trip objs s :
  NoDup (map fst objs) →
  ∃ t s',
    for_each add_name objs nested_defaultdict s = (Ok t, s')
    ∧ ∀ p obj,
        leaf_at t p = Some obj
        ↔ ∃ name, (name, obj) ∈ objs ∧ valid_name name = true
                  ∧ split "_" name = p.
Proof.
  intros Hnd. eexists _, _. split; [apply tree_loop_log|].
  intros p obj. split.
  - intros [H|H]%tree_dict_from_leaf_inv; [|done].
    by rewrite leaf_at_empty in H.
  - intros (name & Hin & Hv & <-). by apply tree_dict_leaf.
Qed.

Lemma tree_loop_round_trip_witness :
  ∃ t s',
    for_each add_name primitive_objs nested_defaultdict (State tree_heap [])
    = (Ok t, s')
    ∧ ∀ p obj,
        leaf_at t p = Some obj
        ↔ ∃ name, (name, obj) ∈ primitive_objs ∧ valid_name name = true
                  ∧ split "_" name = p.
Proof.
  apply (tree_loop_round_trip primitive_objs (State tree_heap [])).
  apply (bool_decide_unpack _). vm_compute. reflexivity.
Defined.

(** ** What [unpack_node] touches *)

Lemma unpack_node_frame n :
  ∀ s, wp (unpack_node n)
          (λ _ s', (length (st_heap s) ≤ length (st_heap s'))%nat
                   ∧ ∀ l, (l < length (st_heap s))%nat → l ∉ branch_locs n →
                          deref (st_heap s') l = deref (st_heap s) l) s.
Proof.
  induction n as [leaf ch IH] using node_ind'. intros s.
  destruct (decide (ch = [])) as [->|Hch].
  { simpl. unfold wp, bind, ret, IterableNamespace_new, alloc.
    destruct leaf as [[|l]|]; simpl; (split; [rewrite ?length_app; lia|]);
      intros l' Hl' _; by rewrite ?deref_app_l. }
  cbn [unpack_node]. apply wp_bind.
  set (I := λ (v : val) (s' : state),
         ∃ c, v = VObj c
              ∧ (c ∈ own_branch (Node leaf ch) ∨ (length (st_heap s) ≤ c)%nat)
              ∧ (length (st_heap s) ≤ length (st_heap s'))%nat
              ∧ ∀ l, (l < length (st_heap s))%nat →
                     l ∉ branch_locs (Node leaf ch) →
                     deref (st_heap s') l = deref (st_heap s) l).
  apply (wp_mono _ I).
  2:{ assert (I (VObj (length (st_heap s)))
                (State (st_heap s ++ [new_namespace]) (st_log s))) as Hnew.
      { exists (length (st_heap s)). split; [done|]. split; [right; lia|].
        cbn [st_heap]. rewrite length_app. split; [lia|].
        intros l Hl _. by rewrite deref_app_l. }
      unfold wp, ret, IterableNamespace_new, alloc.
      destruct leaf as [[|l]|]; [exact Hnew| |exact Hnew].
      exists l. split; [done|]. split; [|by split].
      left. destruct ch; [done|]. by left. }
  intros obj s0 Hobj.
  eapply wp_mono; [|apply (wp_for_each _ I); [|exact Hobj]].
  { intros v s' (c & _ & _ & Hlen & Hfr). by split. }
  clear obj s0 Hobj. intros obj [key value] s0 Hin (c & -> & Hc & Hlen & Hfr).
  eapply Forall_forall in IH; [|exact Hin]. simpl in IH.
  assert (∀ l, l ∉ branch_locs (Node leaf ch) → l ∉ branch_locs value)
    as Hsub.
  { intros l Hl Hv. apply Hl. rewrite branch_locs_node. apply elem_of_app.
    right. apply elem_of_flat_map. by exists (key, value). }
  assert (∀ l, (l < length (st_heap s))%nat →
               l ∉ branch_locs (Node leaf ch) → l ≠ c) as Hne.
  { intros l Hl Hnb ->. destruct Hc as [Hc|Hc]; [|lia].
    apply Hnb. rewrite branch_locs_node. apply elem_of_app. by left. }
  unfold unpack_item. apply wp_bind. unfold wp at 1, hasattr.
  destruct (heap_hasattr (st_heap s0) (VObj c) key) eqn:Hhas.
  - apply heap_hasattr_true in Hhas as [old Hold].
    apply wp_bind. unfold wp at 1, getattr. rewrite Hold.
    apply wp_bind, wp_logger, wp_ret. exists c. by repeat split.
  - apply wp_bind. eapply wp_mono; [|apply IH].
    intros sub s1 [Hlen1 Hfr1]. unfold wp. rewrite attach_run.
    destruct (heap_setattr (st_heap s1) (VObj c) key sub) as [h'|]
      eqn:Hset; cbn [st_heap].
    + exists c. split; [done|]. split; [done|]. cbn [st_heap].
      rewrite (length_setattr _ _ _ _ _ Hset). split; [lia|].
      intros l Hl Hnb. rewrite (deref_setattr _ _ _ _ _ l Hset).
      rewrite decide_False by (by apply Hne).
      rewrite Hfr1 by (by (lia || apply Hsub)). by apply Hfr.
    + exists (length (st_heap s1)). split; [done|]. cbn [st_heap].
      rewrite length_app.
      split; [right; lia|]. split; [lia|].
      intros l Hl Hnb. rewrite deref_app_l by lia.
      rewrite Hfr1 by (by (lia || apply Hsub)). by apply Hfr.
Qed.

Lemma lookup_child_NoDup k c ch :
  NoDup (map fst ch) → (k, c) ∈ ch → lookup_child k ch = Some c.
Proof.
  induction ch as [|[k' c'] ch IH]; simpl; [by intros _ ?%elem_of_nil|].
  intros [Hk' Hnd]%NoDup_cons [[= <- <-]|Hin]%elem_of_cons.
  - by rewrite String.eqb_refl.
  - destruct (String.eqb_spec k' k) as [->|Hne]; [|by apply IH].
    exfalso. apply Hk'. apply list_elem_of_fmap. by exists (k, c).
Qed.

Lemma branch_locs_at n :
  ∀ l, distinct_keys n → l ∈ branch_locs n →
       ∃ p ch, node_at n p = Some (Node (Some (VObj l)) ch) ∧ ch ≠ [].
Proof.
  induction n as [leaf ch IH] using node_ind'. intros l.
  inversion 1 as [? ? Hnd Hdk]; subst.
  rewrite branch_locs_node.
  intros [Hown|((k & child) & Hin & Hl)%elem_of_flat_map]%elem_of_app.
  - exists [], ch.
    destruct leaf as [[|l']|]; try by apply elem_of_nil in Hown.
    destruct ch; [by apply elem_of_nil in Hown|].
    apply list_elem_of_singleton in Hown as ->. done.
  - eapply Forall_forall in IH; [|exact Hin].
    eapply Forall_forall in Hdk; [|exact Hin].
    destruct (IH l Hdk Hl) as (p & ch' & Hat & Hne).
    exists (k :: p), ch'. simpl. by rewrite (lookup_child_NoDup k child).
Qed.

Lemma children_at_empty p : children_at nested_defaultdict p = [].
Proof. unfold children_at. by destruct p. Qed.

Lemma children_at_store keys obj :
  ∀ t p, children_at (store_obj keys obj t) p ≠ [] →
         children_at t p ≠ [] ∨ ∃ k rest, keys = p ++ k :: rest.
Proof.
  unfold children_at.
  induction keys as [|key keys IH]; intros [leaf ch] p; simpl.
  { destruct p; by left. }
  destruct p as [|k p]; simpl.
  { right. by eauto. }
  destruct (decide (k = key)) as [->|Hne].
  - rewrite lookup_child_update_eq.
    intros [H|(k' & rest & ->)]%IH; [|right; by eauto].
    left. destruct (lookup_child key ch); simpl in *; [done|].
    by destruct p.
  - rewrite lookup_child_update_ne by done. by left.
Qed.

Lemma tree_dict_from_children_inv objs :
  ∀ t p,
    children_at (tree_dict_from t objs) p ≠ [] →
    children_at t p ≠ []
    ∨ ∃ name obj k rest, (name, obj) ∈ objs ∧ valid_name name = true
                          ∧ split "_" name = p ++ k :: rest.
Proof.
  induction objs as [|[name o] objs IH]; intros t p H; [by left|].
  rewrite tree_dict_from_cons in H.
  apply IH in H as [H|(name' & obj' & k & rest & ? & ? & ?)].
  - destruct (valid_name name) eqn:Hv; [|by left].
    apply children_at_store in H as [H|(k & rest & Hk)]; [by left|].
    right. exists name, o, k, rest. split; [by left|done].
  - right. exists name', obj', k, rest. split; [by right|done].
Qed.

Lemma branch_locs_is_branch objs l :
  l ∈ branch_locs (tree_dict objs) → is_branch objs l.
Proof.
  intros (p & ch & Hat & Hne)%branch_locs_at; [|apply tree_dict_distinct].
  assert (leaf_at (tree_dict objs) p = Some (VObj l)) as Hleaf
    by (unfold leaf_at; by rewrite Hat).
  assert (children_at (tree_dict objs) p ≠ []) as Hch
    by (unfold children_at; by rewrite Hat).
  apply tree_dict_from_leaf_inv in Hleaf as [Hleaf|(name & Hin & Hv & Hp)];
    [by rewrite leaf_at_empty in Hleaf|].
  apply tree_dict_from_children_inv in Hch
    as [Hch|(name' & obj' & k & rest & Hin' & Hv' & Hp')];
    [by rewrite children_at_empty in Hch|].
  exists name, name', obj', k, rest. by rewrite Hp.
Qed.

Lemma tree_namespace_heap objs h log :
  st_heap (tree_namespace (Some objs) (State h log)).2
  = st_heap (unpack_node (tree_dict objs) (State h [])).2.
Proof.
  destruct (tree_namespace_run objs h log)
    as (c & h' & logu & w & _ & Hheap & Hrun & _).
  by rewrite Hrun, Hheap.
Qed.

(** X5: [tree_namespace] modifies no object but those bound to a valid
    name whose segments are a proper prefix of the segments of another valid
    name: every other object of the heap is after the call what it was
    before. *)
Theorem tree_namespace_frame objs h log l :
  (l < length h)%nat → ¬ is_branch objs l →
  deref (st_heap (tree_namespace (Some objs) (State h log)).2) l = deref h l.
Proof.
  intros Hl Hnb. rewrite tree_namespace_heap.
  pose proof (unpack_node_frame (tree_dict objs) (State h [])) as Hwp.
  unfold wp in Hwp.
  destruct (unpack_node (tree_dict objs) (State h [])) as [[v| |] s'];
    try done.
  destruct Hwp as [_ Hfr]. apply Hfr; [done|].
  intros Hin. by apply Hnb, branch_locs_is_branch.
Qed.

Lemma tree_namespace_frame_witness :
  deref (st_heap (tree_run primitive_objs).2) 1 = deref tree_heap 1.
Proof.
  apply (tree_namespace_frame primitive_objs tree_heap [] 1).
  - vm_compute. lia.
  - intros (name & name' & obj' & k & rest & Hin & _ & Hin' & _ & Hsplit).
    apply elem_of_cons in Hin as [[=]|Hin].
    apply elem_of_cons in Hin as [[= ->]|Hin]; [|by apply elem_of_nil in Hin].
    apply elem_of_cons in Hin' as [[= -> _]|Hin']; [done|].
    apply elem_of_cons in Hin' as [[= -> _]|Hin']; [done|].
    by apply elem_of_nil in Hin'.
Defined.

(** X6: [tree_namespace] removes no object and changes neither the class
    of an object nor whether it accepts attributes; every object it adds is an
    [IterableNamespace]. *)
Theorem tree_namespace_allocates_namespaces objs h log :
  heap_extends h (st_heap (tree_namespace (Some objs) (State h log)).2).
Proof.
  destruct (tree_namespace_total objs h log) as (c & s' & Hrun & _ & _ & Hext).
  by rewrite Hrun.
Qed.

(** ** The groups of the tree namespace *)







Lemma tree_dict_from_invalid objs :
  ∀ t, (∀ name obj, (name, obj) ∈ objs → valid_name name = false) →
       tree_dict_from t objs = t.
Proof.
  induction objs as [|[name obj] objs IH]; intros t Hinv; [done|].
  rewrite tree_dict_from_cons, (Hinv name obj) by (by left).
  apply IH. intros name' obj' Hin. apply (Hinv name' obj'). by right.
Qed.

(** X8: when no name is valid, and so for an empty mapping, [tree_namespace]
    returns a new namespace without attributes and leaves every object as it
    is; the log receives the opening record, the warnings of the names, and
    the closing record with no group. *)
Theorem tree_namespace_nothing_valid objs h log :
  (∀ name obj, (name, obj) ∈ objs → valid_name name = false) →
  tree_namespace (Some objs) (State h log)
  = (Ok (VObj (length h)),
     State (h ++ [new_namespace])
       (log ++ [(DEBUG, MsgCreateTreeNamespace (map fst objs))]
            ++ omap name_warning (map fst objs)
            ++ [(DEBUG, MsgCreatedTree ∅)])).
Proof.
  intros Hinv. unfold tree_namespace, bind at 1, logger at 1.
  unfold bind at 1. rewrite tree_loop_log, tree_dict_from_invalid by done.
  cbn. unfold bind, IterableNamespace_new, alloc, ns_keys, logger, ret.
  cbn. rewrite deref_app_last. cbn. rewrite dom_empty_L.
  by rewrite <- !app_assoc.
Qed.

Lemma tree_namespace_nothing_valid_witness :
  tree_namespace (Some [("class", VObj 0); ("a_1", VObj 1)])
    (State tree_heap [])
  = (Ok (VObj 4),
     State (tree_heap ++ [new_namespace])
       [(DEBUG, MsgCreateTreeNamespace ["class"; "a_1"]);
        (WARNING, MsgReservedKeyword "class" "class");
        (WARNING, MsgInvalidIdentifier "1" "a_1");
        (DEBUG, MsgCreatedTree ∅)]).
Proof.
  apply (tree_namespace_nothing_valid [("class", VObj 0); ("a_1", VObj 1)]
           tree_heap []).
  intros name obj Hin.
  repeat (apply elem_of_cons in Hin as [[= -> _]|Hin]; [by vm_compute|]).
  by apply elem_of_nil in Hin.
Defined.

(** ** [class_namespace] and the objects of the scope *)

Lemma heap_const_ret {A} (a : A) : heap_const (ret a).
Proof. done. Qed.

Lemma heap_const_raise {A} e : heap_const (raise (A:=A) e).
Proof. done. Qed.

Lemma heap_const_logger lv msg : heap_const (logger lv msg).
Proof. done. Qed.

Lemma heap_const_bind {A B} (m : M A) (f : A → M B) :
  heap_const m → (∀ a, heap_const (f a)) → heap_const (bind m f).
Proof.
  intros Hm Hf s. unfold bind. specialize (Hm s).
  destruct (m s) as [[a| |] s']; simpl in *; [|done..].
  by rewrite Hf.
Qed.

Lemma heap_const_for_each {A B} (body : B → A → M B) xs :
  (∀ acc x, heap_const (body acc x)) → ∀ acc, heap_const (for_each body xs acc).
Proof.
  intros Hbody. induction xs as [|x xs IH]; intros acc; [done|].
  apply heap_const_bind; [apply Hbody|apply IH].
Qed.

Lemma heap_const_getattr v k : heap_const (getattr v k).
Proof. intros s. unfold getattr. by destruct (heap_getattr _ _ _). Qed.

Lemma heap_const_as_str v : heap_const (as_str v).
Proof.
  intros s. unfold as_str. destruct v as [|l]; [done|].
  by destruct (obj_str _).
Qed.

Section ScopeUntouched.

Variable classes : class_id → pyclass.
Variable find_class : string → exn + class_id.

Lemma heap_const_py_issubclass c d : heap_const (py_issubclass classes c d).
Proof. by destruct d. Qed.

Lemma heap_const_py_isinstance v d : heap_const (py_isinstance classes v d).
Proof.
  apply heap_const_bind; [done|]. intros c. apply heap_const_py_issubclass.
Qed.

Lemma heap_const_inspect_device_cls fuel :
  ∀ c d cache, heap_const (inspect_device_cls classes fuel c d cache).
Proof.
  induction fuel as [|fuel IH]; intros c d cache; cbn [inspect_device_cls];
    destruct (cache !! c); try done.
  apply heap_const_bind; [|by intros [? ?]].
  destruct (issubclass classes c Device); [|done].
  apply heap_const_bind; [done|]. intros _.
  apply heap_const_bind.
  2:{ intros [attrs cache0]. apply heap_const_bind; [|done].
      unfold debug_subdevices. by destruct attrs. }
  apply heap_const_for_each. intros [attrs cache0] name.
  apply heap_const_bind.
  { unfold class_getattr. by destruct (cls_dict (classes c) !! name). }
  intros [[ccls|] lazy]; simpl; [|done]. destruct lazy; simpl; [done|].
  apply heap_const_bind; [apply heap_const_py_issubclass|]. intros m.
  apply heap_const_bind; [apply IH|]. by intros [? ?].
Qed.

Lemma heap_const_resolve cls : heap_const (resolve find_class cls).
Proof.
  destruct cls as [c|name]; simpl; [done|]. case_bool_decide; [|done].
  by destruct (find_class name).
Qed.

Lemma preserves_const (J : heap → Prop) {A} (m : M A) :
  heap_const m → preserves J m.
Proof. intros Hm s. by rewrite Hm. Qed.

Lemma preserves_bind (J : heap → Prop) {A B} (m : M A) (f : A → M B) :
  preserves J m → (∀ a, preserves J (f a)) → preserves J (bind m f).
Proof.
  intros Hm Hf s HJ. unfold bind. specialize (Hm s HJ).
  destruct (m s) as [[a| |] s']; simpl in *; [|done..].
  by apply Hf.
Qed.

Lemma preserves_for_each (J : heap → Prop) {A B} (body : B → A → M B) xs :
  (∀ acc x, preserves J (body acc x)) →
  ∀ acc, preserves J (for_each body xs acc).
Proof.
  intros Hbody. induction xs as [|x xs IH]; intros acc; [by intros s|].
  apply preserves_bind; [apply Hbody|apply IH].
Qed.

Lemma preserves_setattr_last h k x :
  preserves (namespace_appended h) (setattr (VObj (length h)) k x).
Proof.
  intros s (ns & Hs & Hcls & Hset). unfold setattr.
  rewrite Hs, heap_setattr_last by done. simpl.
  by exists (obj_set k x ns).
Qed.

Lemma preserves_visit h fuel d cache item :
  preserves (namespace_appended h)
    (visit classes fuel (VObj (length h)) d cache item).
Proof.
  destruct item as [name obj]. unfold visit.
  apply preserves_bind.
  { apply preserves_const. case_bool_decide; apply heap_const_py_isinstance. }
  intros include. apply preserves_bind.
  { destruct include; [|by apply preserves_const].
    apply preserves_bind; [by apply preserves_const|]. intros _.
    apply preserves_setattr_last. }
  intros _. apply preserves_bind.
  { apply preserves_const, heap_const_py_isinstance. }
  intros [|]; [|by apply preserves_const].
  apply preserves_bind; [by apply preserves_const|]. intros obj_cls.
  apply preserves_bind.
  { apply preserves_const, heap_const_inspect_device_cls. }
  intros [attrs cache0]. apply preserves_bind; [|by intros _ s].
  apply preserves_for_each. intros [] path. unfold add_subdevice.
  apply preserves_bind.
  { apply preserves_const. unfold walk. apply heap_const_for_each.
    intros. apply heap_const_getattr. }
  intros device. apply preserves_bind.
  { apply preserves_const, heap_const_getattr. }
  intros nm. apply preserves_bind; [by apply preserves_const|]. intros _.
  apply preserves_bind; [apply preserves_const, heap_const_as_str|].
  intros t. apply preserves_setattr_last.
Qed.

(** X9: however [class_namespace] ends (a return, an exception, a
    recursion that does not come back), the heap then is the heap of before
    followed by one namespace: no object of the scope is created, removed or
    modified.  When it returns, it returns that namespace. *)
Theorem class_namespace_scope_untouched fuel cls scope_objs h log :
  namespace_appended h
    (st_heap (class_namespace classes find_class fuel cls scope_objs
                (State h log)).2)
  ∧ ∀ v, (class_namespace classes find_class fuel cls scope_objs
            (State h log)).1 = Ok v →
         v = VObj (length h).
Proof.
  remember (class_namespace classes find_class fuel cls scope_objs
              (State h log)) as r eqn:Hr.
  unfold class_namespace, bind, logger, IterableNamespace_new, alloc in Hr.
  cbn [st_heap st_log] in Hr.
  set (s0 := State (h ++ [new_namespace]) _) in Hr.
  assert (namespace_appended h (st_heap s0)) as HJ by (by exists new_namespace).
  pose proof (heap_const_resolve cls s0) as Hres.
  destruct (resolve find_class cls s0) as [[[d|]| |] s1]; cbn [snd] in Hres;
    rewrite <- Hres in HJ; try (subst r; split; done).
  2:{ subst r. split; [done|]. by intros v [= <-]. }
  pose proof (preserves_for_each (namespace_appended h)
                (visit classes fuel (VObj (length h)) d) scope_objs
                (preserves_visit h fuel d) ∅ s1 HJ) as Hloop.
  fold (@bind) in Hr.
  destruct (for_each (visit classes fuel (VObj (length h)) d) scope_objs ∅ s1)
    as [[cache| |] s2] eqn:Hrun; subst r; simpl in *; try (split; done).
  split; [done|]. by intros v [= <-].
Qed.

End ScopeUntouched.

(** ** [class_namespace] on a scope without composite objects *)

Section Filter.

Variable classes : class_id → pyclass.
Variable find_class : string → exn + class_id.

Lemma target_of_shape cls d :
  target_of find_class cls = Some d →
  d = ClsStr "function" ∨ ∃ c, d = ClsType c.
Proof.
  destruct cls as [c|name]; simpl.
  - intros [= <-]. right. by eauto.
  - case_bool_decide as Hn.
    + destruct (find_class name); [done|]. intros [= <-]. right. by eauto.
    + intros [= <-]. left. f_equal. by destruct (decide (name = "function")).
Qed.

Lemma type_of_live (h : list pyobj) ns obj :
  (∀ l, obj = VObj l → (l < length h)%nat) →
  type_of (h ++ [ns]) obj = type_of h obj.
Proof.
  destruct obj as [|l]; [done|]. intros Hl. simpl.
  by rewrite deref_app_l by (by apply Hl).
Qed.

Lemma wp_py_isinstance v c s :
  wp (py_isinstance classes v (ClsType c))
     (λ b s', s' = s ∧ b = issubclass classes (type_of (st_heap s) v) c) s.
Proof. done. Qed.

Lemma visit_plain fuel d h ns log cache name obj :
  d = ClsStr "function" ∨ (∃ c, d = ClsType c) →
  (∀ l, obj = VObj l → (l < length h)%nat) →
  issubclass classes (type_of h obj) Device = false →
  obj_settable ns = true →
  wp (visit classes fuel (VObj (length h)) d cache (name, obj))
     (λ cache' s',
        ∃ b : bool,
          (b = true ↔ instance_of classes h obj d)
          ∧ st_heap s' = h ++ [if b then obj_set name obj ns else ns])
     (State (h ++ [ns]) log).
Proof.
  intros Hd Hlive Hdev Hset.
  assert (∀ ns', type_of (h ++ [ns']) obj = type_of h obj) as Hty
    by (intros ns'; by apply type_of_live).
  set (incl := match d with
               | ClsType c => issubclass classes (type_of h obj) c
               | ClsStr _ => issubclass classes (type_of h obj) FunctionType
               end).
  assert (incl = true ↔ instance_of classes h obj d) as Hincl
    by (unfold incl, instance_of; by destruct d).
  unfold visit. apply wp_bind.
  apply (wp_mono _ (λ b s', s' = State (h ++ [ns]) log ∧ b = incl)).
  2:{ destruct Hd as [->|[c ->]].
      - rewrite bool_decide_true by done. unfold isfunction.
        eapply wp_mono; [|apply wp_py_isinstance].
        intros b s' [-> ->]. split; [done|]. unfold incl. cbn [st_heap].
        by rewrite Hty.
      - rewrite bool_decide_false by done.
        eapply wp_mono; [|apply wp_py_isinstance].
        intros b s' [-> ->]. split; [done|]. unfold incl. cbn [st_heap].
        by rewrite Hty. }
  intros b s' [-> ->]. apply wp_bind.
  assert (∀ ns' log',
    wp (let* is_device := py_isinstance classes obj (ClsType Device) in
        if is_device : bool then
          let* obj_cls := py_type obj in
          let* '(subdevice_attrs, cache) :=
            inspect_device_cls classes fuel obj_cls d cache in
          for_each (add_subdevice (VObj (length h)) d obj) subdevice_attrs tt >>
          ret cache
        else ret cache)
       (λ _ s', st_heap s' = h ++ [ns']) (State (h ++ [ns']) log')) as Hrest.
  { intros ns' log'. apply wp_bind.
    eapply wp_mono; [|apply wp_py_isinstance].
    intros b s' [-> ->]. cbn [st_heap]. rewrite Hty, Hdev. by apply wp_ret. }
  destruct incl eqn:Hi.
  - apply wp_bind, wp_logger. unfold wp at 1, setattr. cbn [st_heap st_log].
    rewrite heap_setattr_last by done.
    eapply wp_mono; [|apply Hrest]. intros c' s' Hs'. by exists true.
  - apply wp_ret. eapply wp_mono; [|apply Hrest].
    intros c' s' Hs'. exists false. split; [|done]. by rewrite <- Hincl.
Qed.

Lemma filter_loop fuel d h scope :
  ∀ cache ns log,
    d = ClsStr "function" ∨ (∃ c, d = ClsType c) →
    scope_live h scope →
    NoDup (map fst scope) →
    (∀ name obj, (name, obj) ∈ scope →
                 issubclass classes (type_of h obj) Device = false) →
    obj_settable ns = true →
    (∀ k, k ∈ map fst scope → obj_attrs ns !! k = None) →
    wp (for_each (visit classes fuel (VObj (length h)) d) scope cache)
       (λ _ s',
          ∃ ns', st_heap s' = h ++ [ns']
                 ∧ ∀ k v, obj_attrs ns' !! k = Some v
                          ↔ obj_attrs ns !! k = Some v
                            ∨ ((k, v) ∈ scope ∧ instance_of classes h v d))
       (State (h ++ [ns]) log).
Proof.
  induction scope as [|[name obj] scope IH];
    intros cache ns log Hd Hlive Hnd Hdev Hset Hfree.
  { apply wp_ret. exists ns. split; [done|]. intros k v. split; [by left|].
    intros [?|[?%elem_of_nil _]]; done. }
  cbn [map fst] in Hnd. apply NoDup_cons in Hnd as [Hname Hnd].
  cbn [for_each]. apply wp_bind.
  eapply wp_mono; [|apply visit_plain; [done| | |done]].
  2:{ intros l ->. apply (Hlive name). by left. }
  2:{ apply (Hdev name). by left. }
  intros cache' [h1 log1] (b & Hb & Hh1). cbn [st_heap] in Hh1. subst h1.
  eapply wp_mono; [|apply IH]; try done.
  - intros _ s' (ns' & Hs' & Hattrs). exists ns'. split; [done|].
    intros k v. rewrite Hattrs. split.
    + intros [Hk|[Hin Hi]]; [|right; split; [by right|done]].
      destruct b; [|by left]. simpl in Hk. rewrite lookup_insert in Hk.
      case_decide as Hkn; [|by left].
      subst k. injection Hk as <-. right. split; [by left|by apply Hb].
    + intros [Hk|[[[= -> ->]|Hin]%elem_of_cons Hi]].
      * left. destruct b; [|done]. simpl. rewrite lookup_insert_ne; [done|].
        intros <-. rewrite Hfree in Hk; [done|by left].
      * left. apply Hb in Hi as ->. simpl. apply lookup_insert_eq.
      * right. done.
  - intros name' l Hin. apply (Hlive name'). by right.
  - intros name' obj' Hin. apply (Hdev name'). by right.
  - by destruct b.
  - intros k Hk. destruct b; [|apply Hfree; by right]. simpl.
    rewrite lookup_insert_ne; [apply Hfree; by right|]. by intros <-.
Qed.

(** X10: on a scope none of whose objects is a composite, [class_namespace]
    is a filter: it returns (whatever the fuel) a new namespace whose
    attributes are exactly the entries of the scope whose object is an
    instance of the resolved target, each under its own name. *)
Theorem class_namespace_filter fuel cls d scope_objs h log :
  target_of find_class cls = Some d →
  scope_live h scope_objs →
  NoDup (map fst scope_objs) →
  (∀ name obj, (name, obj) ∈ scope_objs →
               issubclass classes (type_of h obj) Device = false) →
  ∃ s',
    class_namespace classes find_class fuel cls scope_objs (State h log)
    = (Ok (VObj (length h)), s')
    ∧ ∀ k v, heap_getattr (st_heap s') (VObj (length h)) k = Some v
             ↔ (k, v) ∈ scope_objs ∧ instance_of classes h v d.
Proof.
  intros Ht Hlive Hnd Hdev.
  assert (wp (class_namespace classes find_class fuel cls scope_objs)
            (λ v s',
               v = VObj (length h)
               ∧ ∀ k x, heap_getattr (st_heap s') (VObj (length h)) k = Some x
                        ↔ (k, x) ∈ scope_objs ∧ instance_of classes h x d)
            (State h log)) as Hwp.
  { unfold class_namespace. apply wp_bind, wp_logger, wp_bind.
    unfold wp at 1, IterableNamespace_new, alloc. cbn [st_heap st_log].
    apply wp_bind.
    destruct (resolve_run find_class cls
                (State (h ++ [new_namespace])
                   (log ++ [(DEBUG, MsgCreateClassNamespace cls)])))
      as (log' & Hres).
    eapply wp_intro; [exact Hres|]. rewrite Ht. cbn [st_heap].
    apply wp_bind. eapply wp_mono; [|apply filter_loop]; try done.
    - intros _ s' (ns' & Hs' & Hattrs). apply wp_ret. split; [done|].
      intros k x. simpl. rewrite Hs', deref_app_last, Hattrs. simpl.
      rewrite lookup_empty. split; [intros [?|?]; done|by right].
    - by eapply target_of_shape. }
  apply wp_elim in Hwp as (v & s' & Hrun & -> & Hattrs). by eauto.
Qed.

End Filter.

Lemma class_namespace_filter_witness :
  ∃ s',
    class_namespace (class_table demo_table) (find_in demo_table) 0
      (ClsStr "function") [("s", VObj 0); ("f", VObj 5)] (State demo_heap [])
    = (Ok (VObj (length demo_heap)), s')
    ∧ ∀ k v, heap_getattr (st_heap s') (VObj (length demo_heap)) k = Some v
             ↔ (k, v) ∈ [("s", VObj 0); ("f", VObj 5)]
               ∧ instance_of (class_table demo_table) demo_heap v
                   (ClsStr "function").
Proof.
  apply (class_namespace_filter (class_table demo_table) (find_in demo_table)
           0 (ClsStr "function") (ClsStr "function")
           [("s", VObj 0); ("f", VObj 5)] demo_heap []).
  - reflexivity.
  - intros name l Hin.
    repeat (apply elem_of_cons in Hin as [[= _ ->]|Hin]; [vm_compute; lia|]).
    by apply elem_of_nil in Hin.
  - apply (bool_decide_unpack _). vm_compute. reflexivity.
  - intros name obj Hin.
    repeat (apply elem_of_cons in Hin as [[= _ ->]|Hin]; [by vm_compute|]).
    by apply elem_of_nil in Hin.
Defined.

(** ** The keys of the class namespace *)

Lemma wp_wlp {A} (m : M A) (Q : A → state → Prop) s : wp m Q s → wlp m Q s.
Proof. unfold wp, wlp. by destruct (m s) as [[a| |] s']. Qed.

Lemma wlp_heap_const {A} (m : M A) (Q : A → state → Prop) s :
  heap_const m → wlp m Q s →
  wlp m (λ a s', Q a s' ∧ st_heap s' = st_heap s) s.
Proof.
  intros Hm. specialize (Hm s). unfold wlp.
  by destruct (m s) as [[a| |] s'].
Qed.

Lemma heap_getattr_live (h : list pyobj) ns v k :
  heap_closed h → val_live h v →
  heap_getattr (h ++ [ns]) v k = heap_getattr h v k
  ∧ ∀ x, heap_getattr h v k = Some x → val_live h x.
Proof.
  intros Hcl Hv. destruct v as [|l]; [done|]. simpl in *.
  rewrite deref_app_l by done. split; [done|]. intros x Hx.
  destruct (lookup_lt_is_Some_2 h l Hv) as [o Ho].
  unfold deref in Hx. rewrite Ho in Hx. by eapply Hcl.
Qed.

Lemma getattr_path_live (h : list pyobj) ns p :
  heap_closed h →
  ∀ v, val_live h v →
       getattr_path (h ++ [ns]) v p = getattr_path h v p
       ∧ ∀ w, getattr_path h v p = Some w → val_live h w.
Proof.
  intros Hcl. induction p as [|k p IH]; intros v Hv; simpl.
  { split; [done|]. by intros w [= <-]. }
  destruct (heap_getattr_live h ns v k Hcl Hv) as [-> Hx].
  destruct (heap_getattr h v k) as [x|]; [|done]. by apply IH, Hx.
Qed.

Lemma str_of_live (h : list pyobj) ns v :
  val_live h v → str_of (h ++ [ns]) v = str_of h v.
Proof. destruct v as [|l]; [done|]. simpl. intros Hl. by rewrite deref_app_l. Qed.

Lemma as_str_run v s :
  as_str v s = (match str_of (st_heap s) v with
                | Some t => Ok t
                | None => Raise TypeError
                end, s).
Proof.
  unfold as_str, str_of. destruct v as [|l]; [done|].
  by destruct (obj_str _).
Qed.

Section Keys.

Variable classes : class_id → pyclass.
Variable find_class : string → exn + class_id.

(** One sub-object added: the heap of the scope is read, the namespace
    gains the key. *)
Lemma add_subdevice_run d h ns log obj path :
  heap_closed h → val_live h obj → obj_settable ns = true →
  wlp (add_subdevice (VObj (length h)) d obj tt path)
      (λ _ s', ∃ k dev,
           subdevice_name h obj path = Some k
           ∧ st_heap s' = h ++ [obj_set k dev ns])
      (State (h ++ [ns]) log).
Proof.
  intros Hcl Hobj Hset. unfold add_subdevice, subdevice_name.
  apply wlp_bind. unfold wlp at 1. rewrite walk_run. cbn [st_heap].
  destruct (getattr_path_live h ns path Hcl obj Hobj) as [-> Hdev].
  destruct (getattr_path h obj path) as [dev|]; [|done].
  specialize (Hdev dev eq_refl).
  apply wlp_bind. unfold wlp at 1, getattr. cbn [st_heap].
  destruct (heap_getattr_live h ns dev "name" Hcl Hdev) as [-> Hnm].
  destruct (heap_getattr h dev "name") as [nm|]; [|done].
  specialize (Hnm nm eq_refl).
  apply wlp_bind, wlp_logger, wlp_bind. unfold wlp at 1.
  rewrite as_str_run. cbn [st_heap]. rewrite str_of_live by done.
  destruct (str_of h nm) as [k|]; [|done].
  unfold wlp, setattr. cbn [st_heap st_log].
  rewrite heap_setattr_last by done. by eauto.
Qed.

Lemma add_subdevices_keys d h obj paths :
  heap_closed h → val_live h obj →
  ∀ ns log,
    obj_settable ns = true →
    wlp (for_each (add_subdevice (VObj (length h)) d obj) paths tt)
        (λ _ s', ∃ ns',
             st_heap s' = h ++ [ns'] ∧ obj_settable ns' = true
             ∧ ∀ k, is_Some (obj_attrs ns' !! k)
                    ↔ is_Some (obj_attrs ns !! k)
                      ∨ ∃ p, p ∈ paths ∧ subdevice_name h obj p = Some k)
        (State (h ++ [ns]) log).
Proof.
  intros Hcl Hobj. induction paths as [|path paths IH]; intros ns log Hset.
  { apply wlp_ret. exists ns. split; [done|]. split; [done|].
    intros k. split; [by left|]. intros [?|(? & ?%elem_of_nil & _)]; done. }
  cbn [for_each]. apply wlp_bind.
  eapply wlp_mono; [|by apply add_subdevice_run].
  intros [] [h1 log1] (k1 & dev & Hk1 & Hh1). cbn [st_heap] in Hh1. subst h1.
  eapply wlp_mono; [|by apply IH].
  intros [] s' (ns' & Hs' & Hset' & Hkeys). exists ns'.
  split; [done|]. split; [done|]. intros k. rewrite Hkeys. simpl.
  rewrite lookup_insert. split.
  - intros [Hk|(p & Hp & Hn)].
    + case_decide as Hkk; [|by left]. subst k. right. exists path.
      split; [by left|done].
    + right. exists p. split; [by right|done].
  - intros [Hk|(p & [->|Hp]%elem_of_cons & Hn)].
    + left. by case_decide.
    + left. rewrite Hk1 in Hn. injection Hn as ->.
      by rewrite decide_True.
    + right. by eauto.
Qed.

Lemma visit_keys fuel d h ns log cache name obj :
  d = ClsStr "function" ∨ (∃ c, d = ClsType c) →
  heap_closed h → val_live h obj → obj_settable ns = true →
  cache_exact classes d cache →
  wlp (visit classes fuel (VObj (length h)) d cache (name, obj))
      (λ cache' s', cache_exact classes d cache'
           ∧ ∃ ns',
               st_heap s' = h ++ [ns'] ∧ obj_settable ns' = true
               ∧ ∀ k, is_Some (obj_attrs ns' !! k)
                      ↔ is_Some (obj_attrs ns !! k)
                        ∨ entry_key classes d h name obj k)
      (State (h ++ [ns]) log).
Proof.
  intros Hd Hcl Hobj Hset Hcache.
  assert (∀ ns', type_of (h ++ [ns']) obj = type_of h obj) as Hty.
  { intros ns'. apply type_of_live. intros l ->. exact Hobj. }
  set (incl := match d with
               | ClsType c => issubclass classes (type_of h obj) c
               | ClsStr _ => issubclass classes (type_of h obj) FunctionType
               end).
  assert (incl = true ↔ instance_of classes h obj d) as Hincl
    by (unfold incl, instance_of; by destruct d).
  unfold visit. apply wlp_bind.
  apply (wlp_mono _ (λ b s', s' = State (h ++ [ns]) log ∧ b = incl)).
  2:{ apply wp_wlp. destruct Hd as [->|[c ->]].
      - rewrite bool_decide_true by done. unfold isfunction.
        eapply wp_mono; [|apply wp_py_isinstance].
        intros b s' [-> ->]. split; [done|]. unfold incl. cbn [st_heap].
        by rewrite Hty.
      - rewrite bool_decide_false by done.
        eapply wp_mono; [|apply wp_py_isinstance].
        intros b s' [-> ->]. split; [done|]. unfold incl. cbn [st_heap].
        by rewrite Hty. }
  intros b s' [-> ->]. apply wlp_bind.
  assert (∀ ns1 log1,
    obj_settable ns1 = true →
    (∀ k, is_Some (obj_attrs ns1 !! k)
          ↔ is_Some (obj_attrs ns !! k) ∨ (k = name ∧ instance_of classes h obj d)) →
    wlp (let* is_device := py_isinstance classes obj (ClsType Device) in
         if is_device : bool then
           let* obj_cls := py_type obj in
           let* '(subdevice_attrs, cache) :=
             inspect_device_cls classes fuel obj_cls d cache in
           for_each (add_subdevice (VObj (length h)) d obj) subdevice_attrs tt >>
           ret cache
         else ret cache)
        (λ cache' s', cache_exact classes d cache'
           ∧ ∃ ns',
               st_heap s' = h ++ [ns'] ∧ obj_settable ns' = true
               ∧ ∀ k, is_Some (obj_attrs ns' !! k)
                      ↔ is_Some (obj_attrs ns !! k)
                        ∨ entry_key classes d h name obj k)
        (State (h ++ [ns1]) log1)) as Hrest.
  { intros ns1 log1 Hset1 Hkeys1. apply wlp_bind, wp_wlp.
    eapply wp_mono; [|apply wp_py_isinstance].
    intros b s' [-> ->]. cbn [st_heap]. rewrite Hty.
    destruct (issubclass classes (type_of h obj) Device) eqn:Hdev.
    2:{ apply wlp_ret. split; [done|]. exists ns1.
        split; [done|]. split; [done|]. intros k. rewrite Hkeys1.
        unfold entry_key. split.
        - intros [?|?]; [by left|right; by left].
        - intros [?|[?|[? _]]]; [by left|by right|congruence]. }
    apply wlp_bind. unfold wlp at 1, py_type. cbn [st_heap]. rewrite Hty.
    apply wlp_bind.
    eapply wlp_mono;
      [|apply wlp_heap_const;
        [apply heap_const_inspect_device_cls
        |by apply inspect_device_cls_exact_wlp]].
    intros [attrs cache'] [h2 log2] [[Hattrs Hcache'] Hh2].
    cbn [st_heap fst snd] in *. subst h2.
    apply wlp_bind. eapply wlp_mono; [|by apply add_subdevices_keys].
    intros [] s' (ns' & Hs' & Hset' & Hkeys'). apply wlp_ret.
    split; [done|]. exists ns'. split; [done|]. split; [done|].
    intros k. rewrite Hkeys', Hkeys1. unfold entry_key. split.
    - intros [[?|?]|(p & Hp & Hn)]; [by left|right; by left|].
      right. right. split; [done|]. exists p. split; [by apply Hattrs|done].
    - intros [?|[?|[_ (p & Hp & Hn)]]]; [left; by left|left; by right|].
      right. exists p. split; [by apply Hattrs|done]. }
  destruct incl eqn:Hi.
  - apply wlp_bind, wlp_logger. unfold wlp at 1, setattr.
    cbn [st_heap st_log]. rewrite heap_setattr_last by done.
    apply Hrest; [done|]. intros k. simpl. rewrite lookup_insert.
    case_decide as Hk.
    + subst k. split; [intros _; right; split; [done|by apply Hincl]|done].
    + split; [by left|]. intros [?|[-> _]]; done.
  - apply wlp_ret. apply Hrest; [done|]. intros k.
    split; [by left|]. intros [?|[_ Hinst]]; [done|].
    apply Hincl in Hinst. congruence.
Qed.

Lemma visit_loop_keys fuel d h scope :
  d = ClsStr "function" ∨ (∃ c, d = ClsType c) →
  heap_closed h →
  ∀ cache ns log,
    scope_live h scope → obj_settable ns = true →
    cache_exact classes d cache →
    wlp (for_each (visit classes fuel (VObj (length h)) d) scope cache)
        (λ _ s', ∃ ns',
             st_heap s' = h ++ [ns']
             ∧ ∀ k, is_Some (obj_attrs ns' !! k)
                    ↔ is_Some (obj_attrs ns !! k)
                      ∨ member_key classes d h scope k)
        (State (h ++ [ns]) log).
Proof.
  intros Hd Hcl. induction scope as [|[name obj] scope IH];
    intros cache ns log Hlive Hset Hcache.
  { apply wlp_ret. exists ns. split; [done|]. intros k. split; [by left|].
    intros [?|(? & ? & ?%elem_of_nil & _)]; done. }
  cbn [for_each]. apply wlp_bind.
  eapply wlp_mono; [|apply visit_keys; try done].
  2:{ destruct obj as [|l]; [done|]. apply (Hlive name). by left. }
  intros cache' [h1 log1] (Hcache' & ns1 & Hh1 & Hset1 & Hkeys1).
  cbn [st_heap] in Hh1. subst h1.
  eapply wlp_mono; [|apply IH; try done].
  2:{ intros name' l Hin. apply (Hlive name'). by right. }
  intros _ s' (ns' & Hs' & Hkeys'). exists ns'. split; [done|].
  intros k. rewrite Hkeys', Hkeys1. unfold member_key. split.
  - intros [[?|He]|(name' & obj' & Hin & He)]; [by left| |].
    + right. exists name, obj. split; [by left|done].
    + right. exists name', obj'. split; [by right|done].
  - intros [?|(name' & obj' & [[= -> ->]|Hin]%elem_of_cons & He)].
    + left. by left.
    + left. by right.
    + right. by eauto.
Qed.

(** X11: the attributes of the namespace [class_namespace] returns are
    exactly the names of the scope whose object is an instance of the target,
    and the names ([.name]) of the sub-objects found in the composite objects
    of the scope along the paths that run through typed, non-lazy component
    slots and end in a slot of a subclass of the target. *)
Theorem class_namespace_keys fuel cls d scope_objs h log ns s' :
  target_of find_class cls = Some d →
  heap_closed h → scope_live h scope_objs →
  class_namespace classes find_class fuel cls scope_objs (State h log)
  = (Ok ns, s') →
  ∀ k, is_Some (heap_getattr (st_heap s') ns k)
       ↔ member_key classes d h scope_objs k.
Proof.
  intros Ht Hcl Hlive Hrun.
  refine (wlp_elim _ (λ ns s', ∀ k, is_Some (heap_getattr (st_heap s') ns k)
                                   ↔ member_key classes d h scope_objs k)
            _ _ _ _ Hrun).
  unfold class_namespace. apply wlp_bind, wlp_logger, wlp_bind.
  unfold wlp at 1, IterableNamespace_new, alloc. cbn [st_heap st_log].
  apply wlp_bind.
  destruct (resolve_run find_class cls
              (State (h ++ [new_namespace])
                 (log ++ [(DEBUG, MsgCreateClassNamespace cls)])))
    as (log' & Hres).
  unfold wlp at 1. rewrite Hres, Ht. cbn [st_heap].
  apply wlp_bind. eapply wlp_mono; [|apply visit_loop_keys; try done].
  - intros _ s1 (ns' & Hs1 & Hkeys). apply wlp_ret. intros k. simpl.
    rewrite Hs1, deref_app_last, Hkeys. simpl. rewrite lookup_empty.
    split; [intros [[? ?]|?]; done|by right].
  - by eapply target_of_shape.
Qed.

End Keys.

Lemma heap_closed_Forall (h : list pyobj) :
  Forall (λ o, map_Forall (λ _ x, val_live h x) (obj_attrs o)) h →
  heap_closed h.
Proof.
  intros HF l o k x Hl Hk. eapply Forall_lookup_1 in HF; [|exact Hl].
  by apply (HF k x).
Qed.

Lemma demo_heap_closed : heap_closed demo_heap.
Proof.
  apply heap_closed_Forall. apply (bool_decide_unpack _). vm_compute.
  reflexivity.
Qed.

Lemma class_namespace_keys_witness :
  is_Some (heap_getattr (st_heap (demo_class_run (ClsStr "Gauge") demo_scope).2)
             (VObj 6) "g")
  ↔ member_key (class_table demo_table) (ClsType "Gauge") demo_heap
      demo_scope "g".
Proof.
  apply (class_namespace_keys (class_table demo_table) (find_in demo_table)
           5 (ClsStr "Gauge") (ClsType "Gauge") demo_scope demo_heap []
           (VObj 6) (demo_class_run (ClsStr "Gauge") demo_scope).2).
  - reflexivity.
  - apply demo_heap_closed.
  - apply demo_scope_live.
  - vm_compute. reflexivity.
Defined.

(** ** [class_namespace] returns on well-formed input *)

Lemma wp_and_wlp {A} (m : M A) (Q Q' : A → state → Prop) s :
  wp m Q s → wlp m Q' s → wp m (λ a s', Q a s' ∧ Q' a s') s.
Proof. unfold wp, wlp. by destruct (m s) as [[a| |] s']. Qed.

Section Total.

Variable classes : class_id → pyclass.
Variable find_class : string → exn + class_id.

Lemma add_subdevice_total d h ns log obj path k :
  heap_closed h → val_live h obj → obj_settable ns = true →
  subdevice_name h obj path = Some k →
  wp (add_subdevice (VObj (length h)) d obj tt path)
     (λ _ s', ∃ ns', st_heap s' = h ++ [ns'] ∧ obj_settable ns' = true)
     (State (h ++ [ns]) log).
Proof.
  intros Hcl Hobj Hset Hk. unfold add_subdevice. unfold subdevice_name in Hk.
  apply wp_bind. unfold wp at 1. rewrite walk_run. cbn [st_heap].
  destruct (getattr_path_live h ns path Hcl obj Hobj) as [-> Hdev].
  destruct (getattr_path h obj path) as [dev|]; [|done].
  specialize (Hdev dev eq_refl).
  apply wp_bind. unfold wp at 1, getattr. cbn [st_heap].
  destruct (heap_getattr_live h ns dev "name" Hcl Hdev) as [-> Hnm].
  destruct (heap_getattr h dev "name") as [nm|]; [|done].
  specialize (Hnm nm eq_refl).
  apply wp_bind, wp_logger, wp_bind. unfold wp at 1.
  rewrite as_str_run. cbn [st_heap]. rewrite str_of_live, Hk by done.
  unfold wp, setattr. cbn [st_heap st_log].
  rewrite heap_setattr_last by done. by eauto.
Qed.

Lemma good_path_named dc h l o p :
  heap_typed classes h → heap_named classes dc h →
  h !! l = Some o →
  good_path classes (ClsType dc) (obj_class o) p →
  is_Some (subdevice_name h (VObj l) p).
Proof.
  intros Hty Hnamed Hl [_ (t & Ht & Hm)].
  destruct (getattr_path_typed classes h h Hty (λ _ _ H, H) p l o t Hl Ht)
    as (l' & o' & Hpath & Hl' & Hcls).
  unfold subdevice_name. rewrite Hpath. simpl in Hm. rewrite <- Hcls in Hm.
  destruct (Hnamed l' o' Hl' Hm) as (nm & Hnm & Hstr).
  simpl. unfold deref. rewrite Hl'. simpl. by rewrite Hnm.
Qed.

Lemma visit_total n fuel dc h ns log cache name obj :
  heap_typed classes h → heap_closed h → heap_named classes dc h →
  issubclass classes NoneType Device = false →
  val_live h obj → obj_settable ns = true →
  cache_ok classes (ClsType dc) cache →
  (issubclass classes (type_of h obj) Device = true →
   acyclic_depth classes n (type_of h obj) = true) →
  (n ≤ fuel)%nat →
  wp (visit classes fuel (VObj (length h)) (ClsType dc) cache (name, obj))
     (λ cache' s',
        cache_ok classes (ClsType dc) cache'
        ∧ ∃ ns', st_heap s' = h ++ [ns'] ∧ obj_settable ns' = true)
     (State (h ++ [ns]) log).
Proof.
  intros Hty Hcl Hnamed Hnone Hobj Hset Hcache Hacyc Hfuel.
  assert (∀ ns', type_of (h ++ [ns']) obj = type_of h obj) as Htype.
  { intros ns'. apply type_of_live. intros l ->. exact Hobj. }
  unfold visit. rewrite bool_decide_false by done. apply wp_bind.
  eapply wp_mono; [|apply wp_py_isinstance].
  intros b s' [-> ->]. apply wp_bind.
  assert (∀ ns1 log1,
    obj_settable ns1 = true →
    wp (let* is_device := py_isinstance classes obj (ClsType Device) in
        if is_device : bool then
          let* obj_cls := py_type obj in
          let* '(subdevice_attrs, cache) :=
            inspect_device_cls classes fuel obj_cls (ClsType dc) cache in
          for_each (add_subdevice (VObj (length h)) (ClsType dc) obj)
            subdevice_attrs tt >>
          ret cache
        else ret cache)
       (λ cache' s',
          cache_ok classes (ClsType dc) cache'
          ∧ ∃ ns', st_heap s' = h ++ [ns'] ∧ obj_settable ns' = true)
       (State (h ++ [ns1]) log1)) as Hrest.
  { intros ns1 log1 Hset1. apply wp_bind.
    eapply wp_mono; [|apply wp_py_isinstance].
    intros b s' [-> ->]. cbn [st_heap]. rewrite Htype.
    destruct (issubclass classes (type_of h obj) Device) eqn:Hdev;
      [|apply wp_ret; by eauto].
    apply wp_bind. unfold wp at 1, py_type. cbn [st_heap]. rewrite Htype.
    apply wp_bind.
    eapply wp_mono;
      [|apply wp_and_wlp;
        [apply inspect_device_cls_total;
         apply (acyclic_depth_mono classes n fuel); [done|by apply Hacyc]
        |by apply inspect_device_cls_good]].
    intros [attrs cache'] [h2 log2] [_ (Hh2 & Hgood & Hcache')].
    cbn [st_heap fst snd] in *. subst h2.
    apply wp_bind.
    eapply wp_mono; [|apply (wp_for_each _
      (λ _ s', ∃ ns', st_heap s' = h ++ [ns'] ∧ obj_settable ns' = true))].
    - intros [] s' Hs'. by apply wp_ret.
    - intros [] path [h3 log3] Hin (ns3 & Hh3 & Hset3).
      cbn [st_heap] in Hh3. subst h3.
      destruct obj as [|l]; [simpl in Hdev; congruence|].
      destruct (lookup_lt_is_Some_2 h l Hobj) as [o Ho].
      eapply Forall_forall in Hgood; [|exact Hin].
      destruct (good_path_named dc h l o path Hty Hnamed Ho) as [k Hk].
      { simpl in Hgood. unfold deref in Hgood. by rewrite Ho in Hgood. }
      by eapply add_subdevice_total.
    - by eauto. }
  cbn [st_heap].
  destruct (issubclass classes (type_of (h ++ [ns]) obj) dc).
  - apply wp_bind, wp_logger. unfold wp at 1, setattr. cbn [st_heap st_log].
    rewrite heap_setattr_last by done. by apply Hrest.
  - apply wp_ret. by apply Hrest.
Qed.

(** X12: [class_namespace] returns the new namespace, without an
    exception, when the target is a class, the objects of the scope are
    allocated in a heap whose composite instances follow their classes, every
    instance of the target carries a [str] name, [None] is no composite, and
    the composite classes in scope nest to a depth within the fuel. *)
Theorem class_namespace_total n fuel cls dc scope_objs h log :
  target_of find_class cls = Some (ClsType dc) →
  heap_typed classes h → heap_closed h → heap_named classes dc h →
  issubclass classes NoneType Device = false →
  scope_live h scope_objs →
  (∀ name obj, (name, obj) ∈ scope_objs →
               issubclass classes (type_of h obj) Device = true →
               acyclic_depth classes n (type_of h obj) = true) →
  (n ≤ fuel)%nat →
  ∃ s', class_namespace classes find_class fuel cls scope_objs (State h log)
        = (Ok (VObj (length h)), s').
Proof.
  intros Ht Hty Hcl Hnamed Hnone Hlive Hacyc Hfuel.
  assert (wp (class_namespace classes find_class fuel cls scope_objs)
            (λ v _, v = VObj (length h)) (State h log)) as Hwp.
  { unfold class_namespace. apply wp_bind, wp_logger, wp_bind.
    unfold wp at 1, IterableNamespace_new, alloc. cbn [st_heap st_log].
    apply wp_bind.
    destruct (resolve_run find_class cls
                (State (h ++ [new_namespace])
                   (log ++ [(DEBUG, MsgCreateClassNamespace cls)])))
      as (log' & Hres).
    eapply wp_intro; [exact Hres|]. rewrite Ht. cbn [st_heap].
    apply wp_bind.
    eapply wp_mono; [|apply (wp_for_each _
      (λ cache s', cache_ok classes (ClsType dc) cache
                   ∧ ∃ ns', st_heap s' = h ++ [ns']
                            ∧ obj_settable ns' = true))].
    - intros cache s' _. by apply wp_ret.
    - intros cache [name obj] [h1 log1] Hin (Hcache & ns1 & Hh1 & Hset1).
      cbn [st_heap] in Hh1. subst h1.
      eapply visit_total; try done.
      + destruct obj as [|l]; [done|]. by apply (Hlive name).
      + by apply (Hacyc name).
    - split; [apply cache_ok_empty|by exists new_namespace]. }
  apply wp_elim in Hwp as (v & s' & Hrun & ->). by eauto.
Qed.

End Total.

Lemma demo_heap_named : heap_named (class_table demo_table) "Gauge" demo_heap.
Proof.
  intros l o Hl Hsub.
  destruct l as [|[|[|[|[|[|l]]]]]]; simpl in Hl; [..|done];
    injection Hl as <-; try (vm_compute in Hsub; done);
    by exists (VObj 0).
Qed.

Lemma class_namespace_total_witness :
  ∃ s', class_namespace (class_table demo_table) (find_in demo_table) 5
          (ClsStr "Gauge") demo_scope (State demo_heap [])
        = (Ok (VObj (length demo_heap)), s').
Proof.
  apply (class_namespace_total (class_table demo_table) (find_in demo_table)
           2 5 (ClsStr "Gauge") "Gauge" demo_scope demo_heap []).
  - reflexivity.
  - apply demo_heap_typed.
  - apply demo_heap_closed.
  - apply demo_heap_named.
  - vm_compute. reflexivity.
  - apply demo_scope_live.
  - intros name obj Hin _. unfold demo_scope in Hin.
    repeat (apply elem_of_cons in Hin as [[= _ ->]|Hin];
            [vm_compute; reflexivity|]).
    by apply elem_of_nil in Hin.
  - lia.
Defined.
